(** * Notifications: the client component and the notification service

    A shallow embedding of
    [ETWeb/frontend/src/components/Dashboard/notifications/Notifications.js]
    (the React class component [Notifications]) and of
    [services/notificationsService.js] (the four HTTP calls it issues).

    The component is a record of its React state and the [_isMounted] flag.
    An [async] handler is a function that runs up to its [await], returning
    the request it issued and the continuation that runs when the promise
    settles; an event loop interleaves user actions and settlements. *)

From stdpp Require Import base gmap sets list strings sorting pretty.

(** ** Data as the client sees it *)

Module Client.

(** [notification.project]: only [name] is read by the component. *)
Record Project := { name : string }.

(** [notification.invitation]: [accepted] is the only key the component
    reads or writes; the other keys ride along in the object spread. *)
Record Invitation := {
  accepted : bool;
  invitation_rest : list (string * string)
}.

Record Notification := {
  id : Z;
  title : string;
  message : string;
  notification_type : string;
  project : option Project;
  invitation : option Invitation;
  is_read : bool;
  created_at : string
}.

(** [error?.response?.data?.detail] of a rejected axios promise. *)
Record ServiceError := { detail : option string }.

(** The calls of [notificationsService], by endpoint. *)
Inductive Request :=
| fetchNotifications
| markNotificationRead (i : Z)
| markAllNotificationsRead
| acceptProjectInvitation (i : Z).

(** How the awaited promise settles. Only [fetchNotifications] uses the
    data of a fulfilled promise. *)
Inductive Response :=
| Fulfilled (data : list Notification)
| Rejected (err : ServiceError).

(** ** Component state *)

Record State := {
  notifications : list Notification;
  loading : bool;
  error : option string;
  info : option string;
  acceptingId : option Z;
  markingIds : gset Z;
  markAllInProgress : bool
}.

Record Component := {
  state : State;
  _isMounted : bool
}.

(** One key of the object handed to [setState]. *)
Inductive Assign :=
| notifications_ (v : list Notification)
| loading_ (v : bool)
| error_ (v : option string)
| info_ (v : option string)
| acceptingId_ (v : option Z)
| markingIds_ (v : gset Z)
| markAllInProgress_ (v : bool).

Definition assign (s : State) (a : Assign) : State :=
  match a with
  | notifications_ v =>
      {| notifications := v; loading := loading s; error := error s;
         info := info s; acceptingId := acceptingId s;
         markingIds := markingIds s; markAllInProgress := markAllInProgress s |}
  | loading_ v =>
      {| notifications := notifications s; loading := v; error := error s;
         info := info s; acceptingId := acceptingId s;
         markingIds := markingIds s; markAllInProgress := markAllInProgress s |}
  | error_ v =>
      {| notifications := notifications s; loading := loading s; error := v;
         info := info s; acceptingId := acceptingId s;
         markingIds := markingIds s; markAllInProgress := markAllInProgress s |}
  | info_ v =>
      {| notifications := notifications s; loading := loading s; error := error s;
         info := v; acceptingId := acceptingId s;
         markingIds := markingIds s; markAllInProgress := markAllInProgress s |}
  | acceptingId_ v =>
      {| notifications := notifications s; loading := loading s; error := error s;
         info := info s; acceptingId := v;
         markingIds := markingIds s; markAllInProgress := markAllInProgress s |}
  | markingIds_ v =>
      {| notifications := notifications s; loading := loading s; error := error s;
         info := info s; acceptingId := acceptingId s;
         markingIds := v; markAllInProgress := markAllInProgress s |}
  | markAllInProgress_ v =>
      {| notifications := notifications s; loading := loading s; error := error s;
         info := info s; acceptingId := acceptingId s;
         markingIds := markingIds s; markAllInProgress := v |}
  end.

(** [this.setState(updater)]: the updater sees the current state and
    returns the keys to overwrite; an object literal is a constant updater. *)
Definition Updater := State -> list Assign.

Definition setState (updater : Updater) (c : Component) : Component :=
  {| state := foldl assign (state c) (updater (state c));
     _isMounted := _isMounted c |}.

Definition setStateSafely (updater : Updater) (c : Component) : Component :=
  if _isMounted c then setState updater c else c.

(** The constructor's state. *)
Definition initialState : State :=
  {| notifications := []; loading := true; error := None; info := None;
     acceptingId := None; markingIds := ∅; markAllInProgress := false |}.

Definition constructor : Component :=
  {| state := initialState; _isMounted := false |}.

(** ** Asynchronous handlers *)

Definition Continuation := Response -> Component -> Component.

(** Running a handler up to its [await]: the component after the
    synchronous prefix, and the request with what runs once it settles
    ([None] when the handler returned without awaiting). *)
Definition Handler := Component -> Component * option (Request * Continuation).

(** [error?.response?.data?.detail || fallback]: the empty string is falsy. *)
Definition errorMessage (e : ServiceError) (fallback : string) : string :=
  match detail e with
  | Some d => if decide (d = "") then fallback else d
  | None => fallback
  end.

(** [new Set(markingIds).add(i)] and [next.delete(i)]. *)
Definition setAdd (i : Z) (s : gset Z) : gset Z := s ∪ {[ i ]}.
Definition setDelete (i : Z) (s : gset Z) : gset Z := s ∖ {[ i ]}.

(** [{ ...n, is_read: true }] *)
Definition withRead (n : Notification) : Notification :=
  {| id := id n; title := title n; message := message n;
     notification_type := notification_type n; project := project n;
     invitation := invitation n; is_read := true; created_at := created_at n |}.

(** [{ ...n.invitation, accepted: true }] *)
Definition withAccepted (v : Invitation) : Invitation :=
  {| accepted := true; invitation_rest := invitation_rest v |}.

(** [{ ...n, is_read: true,
       invitation: n.invitation ? { ...n.invitation, accepted: true } : n.invitation }] *)
Definition withReadAccepted (n : Notification) : Notification :=
  {| id := id n; title := title n; message := message n;
     notification_type := notification_type n; project := project n;
     invitation := match invitation n with
                   | Some v => Some (withAccepted v)
                   | None => None
                   end;
     is_read := true; created_at := created_at n |}.

Definition quote : string := String (Ascii.ascii_of_nat 34) EmptyString.

(** [notification?.project?.name || ''] *)
Definition projectName (n : Notification) : string :=
  match project n with
  | Some p => name p
  | None => ""
  end.

(** *** loadNotifications *)

Definition loadNotifications_settled : Continuation := fun r =>
  match r with
  | Fulfilled data =>
      setStateSafely (fun _ => [notifications_ data; loading_ false])
  | Rejected e =>
      setStateSafely (fun _ =>
        [error_ (Some (errorMessage e "Unable to load notifications."));
         loading_ false])
  end.

Definition loadNotifications : Handler := fun c =>
  (setStateSafely (fun _ => [loading_ true; error_ None; info_ None]) c,
   Some (fetchNotifications, loadNotifications_settled)).

(** *** handleMarkRead *)

Definition handleMarkRead_settled (notification : Notification) : Continuation :=
  fun r =>
  match r with
  | Fulfilled _ =>
      setStateSafely (fun s =>
        [notifications_
           ((fun n => if decide (id n = id notification) then withRead n else n)
              <$> notifications s);
         markingIds_ (setDelete (id notification) (markingIds s))])
  | Rejected e =>
      setStateSafely (fun s =>
        [error_ (Some (errorMessage e "Unable to mark notification as read."));
         markingIds_ (setDelete (id notification) (markingIds s))])
  end.

Definition handleMarkRead (notification : Notification) : Handler := fun c =>
  if is_read notification then (c, None)
  else
    (setStateSafely (fun s =>
       [markingIds_ (setAdd (id notification) (markingIds s))]) c,
     Some (markNotificationRead (id notification),
           handleMarkRead_settled notification)).

(** *** handleMarkAll *)

Definition handleMarkAll_settled : Continuation := fun r =>
  match r with
  | Fulfilled _ =>
      setStateSafely (fun s =>
        [notifications_ (withRead <$> notifications s);
         markAllInProgress_ false;
         info_ (Some "All notifications marked as read.")])
  | Rejected e =>
      setStateSafely (fun _ =>
        [error_ (Some (errorMessage e "Unable to mark all notifications as read."));
         markAllInProgress_ false])
  end.

Definition handleMarkAll : Handler := fun c =>
  (setStateSafely (fun _ =>
     [markAllInProgress_ true; error_ None; info_ None]) c,
   Some (markAllNotificationsRead, handleMarkAll_settled)).

(** *** handleAcceptInvitation *)

Definition handleAcceptInvitation_settled (notification : Notification)
  : Continuation := fun r =>
  match r with
  | Fulfilled _ =>
      setStateSafely (fun s =>
        [notifications_
           ((fun n => if decide (id n = id notification)
                      then withReadAccepted n else n)
              <$> notifications s);
         acceptingId_ None;
         info_ (Some ("You have joined the project " +:+ quote
                        +:+ projectName notification +:+ quote +:+ "."))])
  | Rejected e =>
      setStateSafely (fun _ =>
        [error_ (Some (errorMessage e "Unable to accept invitation."));
         acceptingId_ None])
  end.

Definition handleAcceptInvitation (notification : Notification) : Handler :=
  fun c =>
  (setStateSafely (fun _ =>
     [acceptingId_ (Some (id notification)); error_ None; info_ None]) c,
   Some (acceptProjectInvitation (id notification),
         handleAcceptInvitation_settled notification)).

(** *** Lifecycle *)

Definition componentDidMount : Handler := fun c =>
  loadNotifications {| state := state c; _isMounted := true |}.

Definition componentWillUnmount (c : Component) : Component :=
  {| state := state c; _isMounted := false |}.

(** ** What the user can do, and what is rendered *)

Inductive UserAction :=
| MarkRead (notification : Notification)
| MarkAll
| AcceptInvitation (notification : Notification).

Definition dispatch (a : UserAction) : Handler :=
  match a with
  | MarkRead n => handleMarkRead n
  | MarkAll => handleMarkAll
  | AcceptInvitation n => handleAcceptInvitation n
  end.

(** A rendered [<Button>]: its caption, its [onClick] and its [disabled]
    attribute. *)
Record Button := {
  label : string;
  onClick : UserAction;
  disabled : bool
}.

(** [notification.invitation && notification.invitation.accepted !== true] *)
Definition invitationPending (n : Notification) : bool :=
  match invitation n with
  | Some v => negb (accepted v)
  | None => false
  end.

Definition renderNotificationActions (c : Component) (notification : Notification)
  : list Button :=
  let isMarking := bool_decide (id notification ∈ markingIds (state c)) in
  let isAccepting :=
    bool_decide (acceptingId (state c) = Some (id notification)) in
  if bool_decide (notification_type notification = "project_invitation")
     && invitationPending notification
  then
    [ {| label := if isAccepting then "Accepting…" else "Accept Invitation";
         onClick := AcceptInvitation notification;
         disabled := isAccepting |};
      {| label := if isMarking then "Marking…" else "Mark as read";
         onClick := MarkRead notification;
         disabled := isMarking |} ]
  else
    [ {| label := if is_read notification then "Read"
                  else if isMarking then "Marking…" else "Mark as read";
         onClick := MarkRead notification;
         disabled := is_read notification || isMarking |} ].

(** The header button of [render]. *)
Definition renderMarkAll (c : Component) : Button :=
  {| label := if markAllInProgress (state c) then "Marking…"
              else "Mark all as read";
     onClick := MarkAll;
     disabled := markAllInProgress (state c) |}.

(** The [<Alert>]s of [render]: [error && ...] in colour danger,
    [info && ...] in colour success. The state has no [instructions] key, so
    the third alert never shows. *)
Record Alert := { color : string; text : string }.

Definition truthy (o : option string) : option string :=
  match o with
  | Some s => if decide (s = "") then None else Some s
  | None => None
  end.

Definition renderAlerts (c : Component) : list Alert :=
  match truthy (error (state c)) with
  | Some e => [ {| color := "danger"; text := e |} ]
  | None => []
  end ++
  match truthy (info (state c)) with
  | Some i => [ {| color := "success"; text := i |} ]
  | None => []
  end.

(** A click reaches [onClick] only when the button is not disabled. *)
Definition click (b : Button) : Handler := fun c =>
  if disabled b then (c, None) else dispatch (onClick b) c.

(** A handler run to completion against one service response, nothing
    else happening in between: the final component and the requests sent. *)
Definition complete (h : Handler) (r : Response) (c : Component)
  : Component * list Request :=
  match h c with
  | (c', None) => (c', [])
  | (c', Some (req, k)) => (k r c', [req])
  end.

(** ** The event loop *)

Record System := {
  component : Component;
  pending : list (Request * Continuation);
  sent : list Request
}.

Inductive Event :=
| Mount
| Unmount
| Invoke (a : UserAction)
| Settle (i : nat) (r : Response)
| DismissError
| DismissInfo.

Definition launch (h : Handler) (s : System) : System :=
  match h (component s) with
  | (c', None) =>
      {| component := c'; pending := pending s; sent := sent s |}
  | (c', Some (req, k)) =>
      {| component := c'; pending := pending s ++ [(req, k)];
         sent := sent s ++ [req] |}
  end.

Definition step (s : System) (e : Event) : System :=
  match e with
  | Mount => launch componentDidMount s
  | Unmount =>
      {| component := componentWillUnmount (component s);
         pending := pending s; sent := sent s |}
  | Invoke a => launch (dispatch a) s
  | Settle i r =>
      match pending s !! i with
      | Some (_, k) =>
          {| component := k r (component s);
             pending := delete i (pending s); sent := sent s |}
      | None => s
      end
  | DismissError =>
      {| component := setStateSafely (fun _ => [error_ None]) (component s);
         pending := pending s; sent := sent s |}
  | DismissInfo =>
      {| component := setStateSafely (fun _ => [info_ None]) (component s);
         pending := pending s; sent := sent s |}
  end.

Definition run (s : System) (evs : list Event) : System := foldl step s evs.

Definition boot (c : Component) : System :=
  {| component := c; pending := []; sent := [] |}.

Definition isMount (e : Event) : bool :=
  match e with Mount => true | _ => false end.

(** ** Orders on the client's records *)

(** [advanced n n']: the same notification, with neither flag lowered. *)
Definition advanced (n n' : Notification) : Prop :=
  id n' = id n ∧
  (is_read n = true → is_read n' = true) ∧
  (∀ v, invitation n = Some v → accepted v = true →
        ∃ v', invitation n' = Some v' ∧ accepted v' = true).

(** [sameButRead n n']: [n'] is [n] in every field except possibly [is_read]. *)
Definition sameButRead (n n' : Notification) : Prop :=
  id n' = id n ∧ title n' = title n ∧ message n' = message n ∧
  notification_type n' = notification_type n ∧ project n' = project n ∧
  invitation n' = invitation n ∧ created_at n' = created_at n.

(** ** Invariants of the event loop *)

(** A continuation that can only act through [setStateSafely]. *)
Definition inert_when_unmounted (k : Continuation) : Prop :=
  ∀ r c, _isMounted c = false → k r c = c.

(** The pending continuations of a system are all inert once unmounted. *)
Definition pending_inert (s : System) : Prop :=
  Forall (λ p, inert_when_unmounted p.2) (pending s).

(** A continuation that never lowers a flag of a record. *)
Definition advancing (k : Continuation) : Prop :=
  ∀ r c, Forall2 advanced (notifications (state c))
                          (notifications (state (k r c))).

Definition pending_advancing (s : System) : Prop :=
  Forall (λ p, advancing p.2) (pending s).

(** The in-flight marker the component keeps for an action. *)
Definition inFlight (c : Component) (a : UserAction) : Prop :=
  match a with
  | MarkRead n => id n ∈ markingIds (state c)
  | MarkAll => markAllInProgress (state c) = true
  | AcceptInvitation n => acceptingId (state c) = Some (id n)
  end.

(** ** Sample data *)

Definition invite7 : Notification :=
  {| id := 7; title := "Invitation"; message := "Join the team";
     notification_type := "project_invitation";
     project := Some {| name := "Apollo" |};
     invitation := Some {| accepted := false; invitation_rest := [] |};
     is_read := false; created_at := "2024-01-02T10:00:00Z" |}.

Definition task8 : Notification :=
  {| id := 8; title := "Task"; message := "A task was assigned to you";
     notification_type := "task_assigned"; project := None;
     invitation := None; is_read := true;
     created_at := "2024-01-01T09:00:00Z" |}.

(** A mounted, loaded component with nothing in flight. *)
Definition idle : Component :=
  {| state := {| notifications := [invite7; task8]; loading := false;
                 error := None; info := None; acceptingId := None;
                 markingIds := ∅; markAllInProgress := false |};
     _isMounted := true |}.

(** The same component while both a mark-read and an accept of
    notification 7 are outstanding. *)
Definition busy : Component :=
  {| state := {| notifications := [invite7; task8]; loading := false;
                 error := None; info := None; acceptingId := Some 7%Z;
                 markingIds := {[ 7%Z ]}; markAllInProgress := false |};
     _isMounted := true |}.

Definition noDetail : ServiceError := {| detail := None |}.

(** The mark-as-read button rendered for notification 7 while its
    mark-read is outstanding. *)
Definition renderMarkRead7 : Button :=
  {| label := "Marking…"; onClick := MarkRead invite7; disabled := true |}.

End Client.

(** ** The service of record

    The server behind [/api/collaboration/notifications/] is not among the
    sources of the front end; what follows is its design as the
    specification words it (NotificationStore, InvitationResolver,
    NotificationService), with concurrent requests as interleaved atomic
    steps. *)

Module Service.

(** Modelled from the spec: the closed set of notification types (the
    server's model is missing from the sources). *)
Inductive NotificationType :=
| task_assigned
| project_invitation
| mention
| system.

#[global] Instance NotificationType_eq_dec : EqDecision NotificationType.
Proof. solve_decision. Defined.

(** Modelled from the spec: the invitation sub-record
    [{teamId, invitedByUserId, accepted, resolvedAt}]. *)
Record Invitation := {
  teamId : Z;
  invitedByUserId : Z;
  accepted : bool;
  resolvedAt : option Z
}.

(** Modelled from the spec: the stored notification record of the data
    model. *)
Record Notification := {
  id : Z;
  recipientId : Z;
  type : NotificationType;
  title : string;
  message : string;
  relatedProject : option (Z * string);
  invitation : option Invitation;
  isRead : bool;
  createdAt : Z
}.

(* NotificationStore, the durable keyed storage of the notification
   records, is a finite map from ids to records: [gmap Z Notification]. *)

(** Modelled from the spec: a record with [isRead] replaced. *)
Definition setRead (b : bool) (n : Notification) : Notification :=
  {| id := id n; recipientId := recipientId n; type := type n;
     title := title n; message := message n;
     relatedProject := relatedProject n; invitation := invitation n;
     isRead := b; createdAt := createdAt n |}.

(** Modelled from the spec: a record whose invitation has [accepted] set. *)
Definition setAccepted (n : Notification) : Notification :=
  {| id := id n; recipientId := recipientId n; type := type n;
     title := title n; message := message n;
     relatedProject := relatedProject n;
     invitation :=
       (fun v => {| teamId := teamId v; invitedByUserId := invitedByUserId v;
                    accepted := true; resolvedAt := resolvedAt v |})
         <$> invitation n;
     isRead := isRead n; createdAt := createdAt n |}.

(** Modelled from the spec: [get(id) -> Notification | NotFound]. *)
Definition get (i : Z) (st : gmap Z Notification) : option Notification := st !! i.

(** Modelled from the spec: [compareAndSetRead(id, expectedRead, newRead)],
    atomic, succeeding only if the current [isRead] is the expected one. *)
Definition compareAndSetRead (i : Z) (expectedRead newRead : bool) (st : gmap Z Notification)
  : bool * gmap Z Notification :=
  match st !! i with
  | Some n =>
      if bool_decide (isRead n = expectedRead)
      then (true, <[i := setRead newRead n]> st)
      else (false, st)
  | None => (false, st)
  end.

(** Modelled from the spec: the outcome of the atomic accept transition. *)
Inductive AcceptOutcome := AlreadyAccepted | Accepted.

#[global] Instance AcceptOutcome_eq_dec : EqDecision AcceptOutcome.
Proof. solve_decision. Defined.

(** Modelled from the spec: [compareAndSetInvitationAccepted(id)], one atomic
    step that flips a not yet accepted invitation and tells which of the two
    cases it met ([None] where there is no invitation to flip). *)
Definition compareAndSetInvitationAccepted (i : Z) (st : gmap Z Notification)
  : option AcceptOutcome * gmap Z Notification :=
  match st !! i with
  | Some n =>
      match invitation n with
      | Some v =>
          if accepted v then (Some AlreadyAccepted, st)
          else (Some Accepted, <[i := setAccepted n]> st)
      | None => (None, st)
      end
  | None => (None, st)
  end.

(** Modelled from the spec: the shared world of the requests: the store,
    the teams that exist, the memberships (keyed by team and user), and
    the log of grant calls issued to the membership collaborator. *)
Record World := {
  store : gmap Z Notification;
  teams : gset Z;
  members : gset (Z * Z);
  issued : list (Z * Z)
}.

(** Modelled from the spec: [grantMembership(teamId, userId)], an idempotent
    upsert that fails when the team no longer exists. *)
Definition grantMembership (t u : Z) (w : World) : bool * World :=
  if bool_decide (t ∈ teams w)
  then (true, {| store := store w; teams := teams w;
                 members := members w ∪ {[ (t, u) ]};
                 issued := issued w ++ [(t, u)] |})
  else (false, {| store := store w; teams := teams w;
                  members := members w;
                  issued := issued w ++ [(t, u)] |}).

(** Modelled from the spec: the result of InvitationResolver's [resolve]. *)
Inductive ResolveResult := Granted | AlreadyGranted | RejectedGrant.

(** Modelled from the spec: the outcomes of [acceptInvitation]; [Failed]
    is the surfaced error of a rejected grant. *)
Inductive Outcome :=
| OAccepted
| OAlreadyAccepted
| Forbidden
| NotFound
| InvalidType
| Failed.

(** Modelled from the spec: where one [acceptInvitation] request stands
    between its atomic steps. *)
Inductive PC :=
| Called
| Validated
| Swapped
| Resolved (r : ResolveResult)
| Returned (o : Outcome).

(** Modelled from the spec: one in-flight [acceptInvitation(userId,
    notificationId)] request. *)
Record Call := {
  userId : Z;
  notificationId : Z;
  pc : PC
}.

(** Modelled from the spec: a request moved to another point. *)
Definition goto (c : Call) (p : PC) : Call :=
  {| userId := userId c; notificationId := notificationId c; pc := p |}.

(** Modelled from the spec: the world with another store. *)
Definition withStore (w : World) (st : gmap Z Notification) : World :=
  {| store := st; teams := teams w; members := members w; issued := issued w |}.

(** Modelled from the spec: the next atomic step of [acceptInvitation]:
    the ownership and type checks; the resolver's compare-and-set (with the
    AlreadyGranted short-circuit); the membership grant; forcing [isRead]
    and returning. *)
Definition step_call (c : Call) (w : World) : Call * World :=
  match pc c with
  | Called =>
      match get (notificationId c) (store w) with
      | None => (goto c (Returned NotFound), w)
      | Some n =>
          if bool_decide (recipientId n = userId c)
          then if bool_decide (type n = project_invitation)
               then (goto c Validated, w)
               else (goto c (Returned InvalidType), w)
          else (goto c (Returned Forbidden), w)
      end
  | Validated =>
      match compareAndSetInvitationAccepted (notificationId c) (store w) with
      | (Some AlreadyAccepted, st) => (goto c (Resolved AlreadyGranted), withStore w st)
      | (Some Accepted, st) => (goto c Swapped, withStore w st)
      | (None, st) => (goto c (Returned NotFound), withStore w st)
      end
  | Swapped =>
      match get (notificationId c) (store w) ≫= invitation with
      | Some v =>
          match grantMembership (teamId v) (userId c) w with
          | (true, w') => (goto c (Resolved Granted), w')
          | (false, w') => (goto c (Resolved RejectedGrant), w')
          end
      | None => (goto c (Resolved RejectedGrant), w)
      end
  | Resolved Granted =>
      (goto c (Returned OAccepted),
       withStore w (alter (setRead true) (notificationId c) (store w)))
  | Resolved AlreadyGranted =>
      (goto c (Returned OAlreadyAccepted),
       withStore w (alter (setRead true) (notificationId c) (store w)))
  | Resolved RejectedGrant => (goto c (Returned Failed), w)
  | Returned _ => (c, w)
  end.

(** Modelled from the spec: what the request saw at the accept
    compare-and-set, once it is past it. *)
Definition observed (p : PC) : option AcceptOutcome :=
  match p with
  | Called | Validated => None
  | Swapped => Some Accepted
  | Resolved Granted | Resolved RejectedGrant => Some Accepted
  | Resolved AlreadyGranted => Some AlreadyAccepted
  | Returned OAccepted | Returned Failed => Some Accepted
  | Returned OAlreadyAccepted => Some AlreadyAccepted
  | Returned _ => None
  end.

(** Modelled from the spec: the requests running concurrently against one
    world. *)
Record Server := {
  world : World;
  calls : list Call
}.

(** Modelled from the spec: the scheduler lets request [i] take its next
    atomic step. *)
Definition sched_step (s : Server) (i : nat) : Server :=
  match calls s !! i with
  | Some c =>
      let '(c', w') := step_call c (world s) in
      {| world := w'; calls := <[i := c']> (calls s) |}
  | None => s
  end.

(** Modelled from the spec: an interleaving is the list of the requests'
    turns. *)
Definition interleave (s : Server) (schedule : list nat) : Server :=
  foldl sched_step s schedule.

(** Modelled from the spec: [k] simultaneous requests by [u] on [nid]. *)
Definition racing (k : nat) (u nid : Z) : list Call :=
  replicate k {| userId := u; notificationId := nid; pc := Called |}.

(** Modelled from the spec: how many requests saw [o] at the
    compare-and-set. *)
Definition observers (o : AcceptOutcome) (cs : list Call) : nat :=
  length (filter (fun c => observed (pc c) = Some o) cs).

(** Modelled from the spec: how often request [i] is scheduled. *)
Definition turns (i : nat) (schedule : list nat) : nat :=
  length (filter (fun j => j = i) schedule).

(** Modelled from the spec: the outcomes of [markRead]. *)
Inductive MarkOutcome := Updated | NoOp | MForbidden | MNotFound.

(** Modelled from the spec: [markRead(userId, notificationId)]. *)
Definition markRead (u i : Z) (st : gmap Z Notification) : MarkOutcome * gmap Z Notification :=
  match get i st with
  | None => (MNotFound, st)
  | Some n =>
      if bool_decide (recipientId n = u)
      then match compareAndSetRead i false true st with
           | (true, st') => (Updated, st')
           | (false, st') => (NoOp, st')
           end
      else (MForbidden, st)
  end.

(** Modelled from the spec: the order of [listByRecipient], newest first. *)
Definition newerFirst (a b : Notification) : Prop :=
  (createdAt b ≤ createdAt a)%Z.

#[global] Instance newerFirst_dec : RelDecision newerFirst.
Proof. intros a b. unfold newerFirst. apply _. Defined.

(** Modelled from the spec: [listByRecipient(userId)], newest first. *)
Definition listByRecipient (u : Z) (st : gmap Z Notification) : list Notification :=
  merge_sort newerFirst
    (filter (fun n => recipientId n = u) (snd <$> map_to_list st)).

(** Modelled from the spec: one round of [markAllRead]: [markRead] on the
    next unread notification, counted when it caused the transition. *)
Definition markOne (u : Z) (acc : nat * gmap Z Notification) (n : Notification)
  : nat * gmap Z Notification :=
  match markRead u (id n) acc.2 with
  | (Updated, st') => (S acc.1, st')
  | (_, st') => (acc.1, st')
  end.

(** Modelled from the spec: [markAllRead(userId)] applies [markRead] to
    each of the recipient's unread notifications and counts the transitions
    it caused. *)
Definition markAllRead (u : Z) (st : gmap Z Notification)
  : nat * gmap Z Notification :=
  foldl (markOne u) (0, st)
        (filter (fun n => isRead n = false) (listByRecipient u st)).

(** Modelled from the spec: the number of [u]'s stored notifications that
    are unread (N of the N + M). *)
Definition unreadCount (u : Z) (st : gmap Z Notification) : nat :=
  length (filter (fun kv => recipientId kv.2 = u ∧ isRead kv.2 = false)
                 (map_to_list st)).

(** Modelled from the spec: the store is keyed by the records' ids. *)
Definition keyed (st : gmap Z Notification) : Prop :=
  ∀ i n, st !! i = Some n → id n = i.

(** Modelled from the spec: how far a request has come, in atomic steps
    of [acceptInvitation]. *)
Definition rank (p : PC) : nat :=
  match p with
  | Called => 0
  | Validated => 1
  | Swapped => 2
  | Resolved _ => 3
  | Returned _ => 4
  end.

(** Modelled from the spec: the points of a request that lie after the
    call to the membership collaborator. *)
Definition pastGrant (p : PC) : Prop :=
  match p with
  | Resolved Granted | Resolved RejectedGrant
  | Returned OAccepted | Returned Failed => True
  | _ => False
  end.

#[global] Instance pastGrant_dec p : Decision (pastGrant p).
Proof. destruct p as [| | |[]|[]]; simpl; apply _. Defined.

(** Modelled from the spec: a request that was not turned away by the
    ownership, existence and type checks. *)
Definition legit (p : PC) : Prop :=
  match p with
  | Returned Forbidden | Returned NotFound | Returned InvalidType => False
  | _ => True
  end.

(** Modelled from the spec: how many requests are past their membership
    grant. *)
Definition granted (cs : list Call) : nat :=
  length (filter (fun c => pastGrant (pc c)) cs).

(** Modelled from the spec: what holds at every moment of a race of
    requests by the recipient [u] on the invitation [nid] to team [t],
    started in world [w0]: the requests are the recipient's and passed the
    checks; the teams are those of [w0]; one grant was issued per request
    past its grant; the stored invitation is accepted exactly when one
    request saw [Accepted], and no request saw [AlreadyAccepted] before
    that. *)
Definition raceInv (u nid t : Z) (w0 : World) (s : Server) : Prop :=
  (∀ j c, calls s !! j = Some c →
          userId c = u ∧ notificationId c = nid ∧ legit (pc c) ∧
          (t ∈ teams w0 →
           pc c ≠ Resolved RejectedGrant ∧ pc c ≠ Returned Failed)) ∧
  teams (world s) = teams w0 ∧
  issued (world s) = issued w0 ++ replicate (granted (calls s)) (t, u) ∧
  ∃ n v, store (world s) !! nid = Some n ∧ recipientId n = u ∧
         type n = project_invitation ∧ invitation n = Some v ∧
         teamId v = t ∧
         observers Accepted (calls s) = (if accepted v then 1 else 0) ∧
         (accepted v = false → observers AlreadyAccepted (calls s) = 0).

(** Modelled from the spec: sample data: user 1's pending invitation 7 to
    team 3. *)
Definition invitation7 : Notification :=
  {| id := 7; recipientId := 1; type := project_invitation;
     title := "Invitation"; message := "Join the team";
     relatedProject := Some (5%Z, "Apollo");
     invitation := Some {| teamId := 3; invitedByUserId := 2;
                           accepted := false; resolvedAt := None |};
     isRead := false; createdAt := 20 |}.

(** Modelled from the spec: sample data: an older task notification of
    user 1, already read. *)
Definition assigned8 : Notification :=
  {| id := 8; recipientId := 1; type := task_assigned;
     title := "Task"; message := "A task was assigned to you";
     relatedProject := None; invitation := None;
     isRead := true; createdAt := 10 |}.

(** Modelled from the spec: sample data: a store holding the two. *)
Definition sampleStore : gmap Z Notification :=
  <[ 7%Z := invitation7 ]> (<[ 8%Z := assigned8 ]> ∅).

(** Modelled from the spec: sample data: a world where team 3 exists and
    no grant was issued yet. *)
Definition sampleWorld : World :=
  {| store := sampleStore; teams := {[ 3%Z ]}; members := ∅; issued := [] |}.

End Service.

(** ** What the component renders

    [renderNotification], [renderContent] and [render] as data: the JSX
    tree reduced to what depends on the state. *)

Module Rendering.
Import Client.

(** [s.replace(pat, rep)] for one-character strings: the first occurrence
    only. *)
Fixpoint replaceFirst (pat rep : Ascii.ascii) (s : string) : string :=
  match s with
  | EmptyString => EmptyString
  | String a s' =>
      if decide (a = pat) then String rep s'
      else String a (replaceFirst pat rep s')
  end.

(** Whether a character occurs in a string. *)
Fixpoint occurs (a : Ascii.ascii) (s : string) : bool :=
  match s with
  | EmptyString => false
  | String b s' => bool_decide (b = a) || occurs a s'
  end.

Definition underscore : Ascii.ascii := Ascii.ascii_of_nat 95.
Definition space : Ascii.ascii := Ascii.ascii_of_nat 32.

Record Badge := { badgeColor : string; badgeText : string }.

(** One [<ListGroupItem>] of the list. *)
Record ListGroupItem := {
  key : Z;
  className : string;
  heading : string;
  badges : list Badge;
  body : string;
  timestamp : string;
  actions : list Button
}.

(** [formatDateTime]: [new Date(value).toLocaleString()], the locale's
    rendering being the browser's. *)
Definition formatDateTime (toLocaleString : string → string) (value : string)
  : string := toLocaleString value.

Definition renderNotification (toLocaleString : string → string)
    (c : Component) (notification : Notification) : ListGroupItem :=
  let isUnread := negb (is_read notification) in
  {| key := id notification;
     className := "flex-column align-items-start "
                  +:+ (if isUnread then "bg-light" else "");
     heading := title notification;
     badges :=
       {| badgeColor := "secondary";
          badgeText := replaceFirst underscore space
                         (notification_type notification) |}
       :: match project notification with
          | Some p => [ {| badgeColor := "info"; badgeText := name p |} ]
          | None => []
          end;
     body := message notification;
     timestamp := formatDateTime toLocaleString (created_at notification);
     actions := renderNotificationActions c notification |}.

Inductive Content :=
| ContentSpinner
| ContentAlert (a : Alert)
| ContentList (items : list ListGroupItem).

Definition renderContent (toLocaleString : string → string) (c : Component)
  : Content :=
  if loading (state c) then ContentSpinner
  else match notifications (state c) with
       | [] => ContentAlert {| color := "info";
                               text := "You have no notifications yet." |}
       | ns => ContentList (renderNotification toLocaleString c <$> ns)
       end.

Record Page := {
  markAllButton : Button;
  alerts : list Alert;
  content : Content
}.

Definition render (toLocaleString : string → string) (c : Component) : Page :=
  {| markAllButton := renderMarkAll c;
     alerts := renderAlerts c;
     content := renderContent toLocaleString c |}.

End Rendering.

(** ** The HTTP calls of [notificationsService] *)

Module Endpoints.
Import Client.

Inductive Method := GET | POST.

Definition API_BASE : string := "/api/collaboration/notifications/".

(** [Number.MAX_SAFE_INTEGER] and [Number.isSafeInteger] on integers: the
    integers every one of which a JavaScript number holds exactly. *)
Definition MAX_SAFE_INTEGER : Z := 2 ^ 53 - 1.

Definition isSafeInteger (i : Z) : bool :=
  bool_decide (- MAX_SAFE_INTEGER ≤ i ≤ MAX_SAFE_INTEGER)%Z.

(** [`${id}`] for a numeric id: a safe integer is printed as its decimal
    numeral. Beyond the safe integers a number is printed from its double
    (rounded digits, exponent form from 1e21 on), which is not described
    here: the result is [None]. *)
Definition templateLiteral (i : Z) : option string :=
  if isSafeInteger i then Some (pretty i) else None.

(** The method and URL of each call, where the id is a safe integer. *)
Definition endpoint (r : Request) : option (Method * string) :=
  match r with
  | fetchNotifications => Some (GET, API_BASE)
  | markNotificationRead i =>
      (λ s, (POST, API_BASE +:+ s +:+ "/mark_read/")) <$> templateLiteral i
  | markAllNotificationsRead => Some (POST, API_BASE +:+ "mark_all_read/")
  | acceptProjectInvitation i =>
      (λ s, (POST, API_BASE +:+ s +:+ "/accept_invitation/"))
        <$> templateLiteral i
  end.

(** A call whose id, if it has one, is a safe integer. *)
Definition safeRequest (r : Request) : Prop :=
  match r with
  | markNotificationRead i | acceptProjectInvitation i =>
      isSafeInteger i = true
  | _ => True
  end.

Definition slash : Ascii.ascii := Ascii.ascii_of_nat 47.
Definition letter_m : Ascii.ascii := Ascii.ascii_of_nat 109.

(** What matters of the characters of a decimal numeral (digits and the
    minus sign): none is a slash or the letter m. *)
Definition numeralChar (a : Ascii.ascii) : Prop :=
  a ≠ slash ∧ a ≠ letter_m.

Fixpoint allChars (P : Ascii.ascii → Prop) (s : string) : Prop :=
  match s with
  | EmptyString => True
  | String a s' => P a ∧ allChars P s'
  end.

End Endpoints.

(** ** Bookkeeping of the event loop *)

Module Bookkeeping.
Import Client.

Definition isUnmount (e : Event) : bool :=
  match e with Unmount => true | _ => false end.

(** A pending entry pairs a request with the continuation of the handler
    that sent it. *)
Definition entryOk (p : Request * Continuation) : Prop :=
  match p.1 with
  | fetchNotifications => p.2 = loadNotifications_settled
  | markNotificationRead i => ∃ n, id n = i ∧ p.2 = handleMarkRead_settled n
  | markAllNotificationsRead => p.2 = handleMarkAll_settled
  | acceptProjectInvitation i =>
      ∃ n, id n = i ∧ p.2 = handleAcceptInvitation_settled n
  end.

(** No in-flight marker is set. *)
Definition quiet (c : Component) : Prop :=
  markingIds (state c) = ∅ ∧ acceptingId (state c) = None ∧
  markAllInProgress (state c) = false.

(** Every in-flight marker of the component has its request outstanding. *)
Definition markersBacked (s : System) : Prop :=
  (∀ i, i ∈ markingIds (state (component s)) →
        ∃ k, (markNotificationRead i, k) ∈ pending s) ∧
  (∀ i, acceptingId (state (component s)) = Some i →
        ∃ k, (acceptProjectInvitation i, k) ∈ pending s) ∧
  (markAllInProgress (state (component s)) = true →
        ∃ k, (markAllNotificationsRead, k) ∈ pending s).

(** The invariant behind [markersBacked]: the pending entries are the
    handlers' own, and an unmounted component has no marker set. *)
Definition bookkeeping (s : System) : Prop :=
  Forall entryOk (pending s) ∧
  markersBacked s ∧
  (_isMounted (component s) = false → quiet (component s)).

(** A continuation that leaves the [loading] flag alone. *)
Definition keepsLoading (k : Continuation) : Prop :=
  ∀ r c, loading (state (k r c)) = loading (state c).

(** Marking every notification of the list read, one fulfilled
    [handleMarkRead] after the other. *)
Definition markEach (d : list Notification) (c : Component) : Component :=
  foldl (fun c n => (complete (handleMarkRead n) (Fulfilled d) c).1)
        c (notifications (state c)).

(** Whether one of the notifications [todo] is unread and has [m]'s id. *)
Definition hit (todo : list Notification) (m : Notification) : bool :=
  existsb (fun n => negb (is_read n) && bool_decide (id n = id m)) todo.

End Bookkeeping.

(** * Properties of the client component *)

Module ClientProofs.
Import Client.

(** ** [setStateSafely] *)

Lemma setStateSafely_unmounted (u : Updater) (c : Component) :
  _isMounted c = false → setStateSafely u c = c.
Proof. intros H. unfold setStateSafely. by rewrite H. Qed.

Lemma setStateSafely_mounted (u : Updater) (c : Component) :
  _isMounted c = true → setStateSafely u c = setState u c.
Proof. intros H. unfold setStateSafely. by rewrite H. Qed.

Lemma setStateSafely_isMounted (u : Updater) (c : Component) :
  _isMounted (setStateSafely u c) = _isMounted c.
Proof. unfold setStateSafely. by destruct (_isMounted c) eqn:E. Qed.

Lemma loadNotifications_settled_inert :
  inert_when_unmounted loadNotifications_settled.
Proof. intros [d|e] c H; simpl; by apply setStateSafely_unmounted. Qed.

Lemma handleMarkRead_settled_inert n :
  inert_when_unmounted (handleMarkRead_settled n).
Proof. intros [d|e] c H; simpl; by apply setStateSafely_unmounted. Qed.

Lemma handleMarkAll_settled_inert :
  inert_when_unmounted handleMarkAll_settled.
Proof. intros [d|e] c H; simpl; by apply setStateSafely_unmounted. Qed.

Lemma handleAcceptInvitation_settled_inert n :
  inert_when_unmounted (handleAcceptInvitation_settled n).
Proof. intros [d|e] c H; simpl; by apply setStateSafely_unmounted. Qed.

(** Every handler, started on an unmounted component, leaves it as it is
    and awaits with an inert continuation. *)
Lemma dispatch_unmounted a c :
  _isMounted c = false →
  (dispatch a c).1 = c ∧
  ∀ req k, (dispatch a c).2 = Some (req, k) → inert_when_unmounted k.
Proof.
  intros H. destruct a as [n| |n]; simpl.
  - unfold handleMarkRead. destruct (is_read n); simpl.
    + split; [done | intros ?? [=]].
    + split; [by apply setStateSafely_unmounted |].
      intros ?? [= <- <-]. apply handleMarkRead_settled_inert.
  - split; [by apply setStateSafely_unmounted |].
    intros ?? [= <- <-]. apply handleMarkAll_settled_inert.
  - split; [by apply setStateSafely_unmounted |].
    intros ?? [= <- <-]. apply handleAcceptInvitation_settled_inert.
Qed.

Lemma dispatch_continuation_inert a c req k :
  (dispatch a c).2 = Some (req, k) → inert_when_unmounted k.
Proof.
  destruct a as [n| |n]; simpl.
  - unfold handleMarkRead. destruct (is_read n); simpl; [intros [=] |].
    intros [= <- <-]. apply handleMarkRead_settled_inert.
  - intros [= <- <-]. apply handleMarkAll_settled_inert.
  - intros [= <- <-]. apply handleAcceptInvitation_settled_inert.
Qed.

Lemma launch_pending_inert h s :
  (∀ c req k, (h c).2 = Some (req, k) → inert_when_unmounted k) →
  pending_inert s → pending_inert (launch h s).
Proof.
  intros Hh Hs. unfold launch, pending_inert in *.
  destruct (h (component s)) as [c' [[req k]|]] eqn:E; simpl; [|done].
  apply Forall_app. split; [done |].
  constructor; [| constructor]. simpl.
  apply (Hh (component s) req). by rewrite E.
Qed.

Lemma step_pending_inert s e : pending_inert s → pending_inert (step s e).
Proof.
  intros Hs. destruct e as [| |a|i r| |]; simpl; try done.
  - apply launch_pending_inert; [|done].
    intros c req k. unfold componentDidMount, loadNotifications. simpl.
    intros [= <- <-]. apply loadNotifications_settled_inert.
  - apply launch_pending_inert; [|done].
    intros c req k. apply dispatch_continuation_inert.
  - destruct (pending s !! i) as [[req k]|] eqn:E; [|done].
    unfold pending_inert in *. simpl.
    by apply Forall_delete.
Qed.

Lemma run_pending_inert evs : ∀ s, pending_inert s → pending_inert (run s evs).
Proof.
  induction evs as [|e evs IH]; intros s Hs; [done |].
  simpl. apply IH. by apply step_pending_inert.
Qed.

Lemma boot_pending_inert c : pending_inert (boot c).
Proof. constructor. Qed.

(** Once unmounted, a step other than a mount leaves the component alone. *)
Lemma step_unmounted s e :
  pending_inert s → _isMounted (component s) = false → isMount e = false →
  component (step s e) = component s.
Proof.
  intros Hs Hm He. destruct e as [| |a|i r| |]; simpl in *; try done.
  - destruct (component s) as [st m]. simpl in *. by subst.
  - unfold launch. pose proof (dispatch_unmounted a _ Hm) as [H1 _].
    destruct (dispatch a (component s)) as [c' [[req k]|]]; simpl in *; done.
  - destruct (pending s !! i) as [[req k]|] eqn:E; [|done]. simpl.
    unfold pending_inert in Hs. rewrite Forall_lookup in Hs.
    by apply (Hs i (req, k) E).
  - by apply setStateSafely_unmounted.
  - by apply setStateSafely_unmounted.
Qed.

Lemma run_unmounted evs : ∀ s,
  pending_inert s → _isMounted (component s) = false →
  Forall (λ e, isMount e = false) evs →
  component (run s evs) = component s.
Proof.
  induction evs as [|e evs IH]; intros s Hs Hm Hevs; [done |].
  inversion Hevs as [|?? He Hevs']; subst. simpl.
  pose proof (step_unmounted s e Hs Hm He) as Hc.
  rewrite IH; [done | by apply step_pending_inert | by rewrite Hc | done].
Qed.

(** C10. Once [componentWillUnmount] has run, whatever was started before
    it (from the constructor's or any other component, by any events) and
    whatever happens after it short of a new mount (handlers started,
    pending promises fulfilled or rejected, alerts dismissed) leaves the
    component exactly as the unmount left it: every update goes through
    [setStateSafely], which does nothing while [_isMounted] is false. *)
Theorem C10_no_update_after_unmount (c0 : Component) (before after : list Event) :
  Forall (λ e, isMount e = false) after →
  let s := step (run (boot c0) before) Unmount in
  _isMounted (component s) = false ∧
  component (run s after) = component s ∧
  (∀ u c, _isMounted c = false → setStateSafely u c = c).
Proof.
  intros Hafter s. split; [done |]. split.
  - apply run_unmounted; [| done | done].
    apply step_pending_inert, run_pending_inert, boot_pending_inert.
  - intros u c. apply setStateSafely_unmounted.
Qed.

Lemma C10_witness :
  Forall (λ e, isMount e = false)
    [Settle 1 (Fulfilled []); Settle 0 (Fulfilled [task8]); Invoke MarkAll;
     Settle 0 (Rejected noDetail)] ∧
  let s := step (run (boot constructor) [Mount; Invoke (MarkRead invite7)])
                Unmount in
  _isMounted (component s) = false ∧
  component (run s [Settle 1 (Fulfilled []); Settle 0 (Fulfilled [task8]);
                    Invoke MarkAll; Settle 0 (Rejected noDetail)])
    = component s ∧
  (∀ u c, _isMounted c = false → setStateSafely u c = c).
Proof.
  split; [repeat constructor |].
  apply (C10_no_update_after_unmount constructor
           [Mount; Invoke (MarkRead invite7)]).
  repeat constructor.
Defined.

(** ** The list updates of the handlers *)

Lemma Forall2_fmap_self {A} (P : A → A → Prop) (f : A → A) (l : list A) :
  (∀ x, P x (f x)) → Forall2 P l (f <$> l).
Proof. intros H. induction l; simpl; constructor; auto. Qed.

Lemma sameButRead_refl n : sameButRead n n.
Proof. by repeat split. Qed.

Lemma sameButRead_withRead n : sameButRead n (withRead n).
Proof. by repeat split. Qed.

(** C9. A successful [handleMarkRead] on [n] (started on any component,
    fulfilled with any data) keeps the list position by position: a record
    with another id is the same record, a record with [n]'s id is the same
    in every field but [is_read]; the other keys of the state keep their
    values, and [markingIds] changes at most at [n]'s id. *)
Theorem C9_markRead_changes_only_is_read
    (n : Notification) (d : list Notification) (c : Component) :
  let c' := (complete (handleMarkRead n) (Fulfilled d) c).1 in
  Forall2 (λ m m', sameButRead m m' ∧ (id m ≠ id n → m' = m))
          (notifications (state c)) (notifications (state c')) ∧
  loading (state c') = loading (state c) ∧
  error (state c') = error (state c) ∧
  info (state c') = info (state c) ∧
  acceptingId (state c') = acceptingId (state c) ∧
  markAllInProgress (state c') = markAllInProgress (state c) ∧
  (∀ j, j ≠ id n → j ∈ markingIds (state c') ↔ j ∈ markingIds (state c)).
Proof.
  assert (Hrefl : Forall2 (λ m m', sameButRead m m' ∧ (id m ≠ id n → m' = m))
                    (notifications (state c)) (notifications (state c))).
  { apply Forall_Forall2_diag, Forall_forall. intros m _.
    split; [apply sameButRead_refl | done]. }
  unfold complete, handleMarkRead.
  destruct (is_read n); simpl; [by repeat split |].
  unfold setStateSafely. destruct c as [s [|]]; simpl in *;
    [| by repeat split].
  repeat split; try done.
  - apply Forall2_fmap_self. intros m. case_decide as Hid.
    + split; [apply sameButRead_withRead | done].
    + split; [apply sameButRead_refl | done].
  - unfold setDelete, setAdd.
    rewrite elem_of_difference, elem_of_union, !elem_of_singleton. tauto.
  - unfold setDelete, setAdd.
    rewrite elem_of_difference, elem_of_union, !elem_of_singleton. tauto.
Qed.

(** C3. On a mounted component, once an accept is fulfilled (whether the
    continuation meets the component at some later point or the handler
    runs start to end), the list is the list before with the records of the
    accepted notification's id rewritten and the others kept: position by
    position each record keeps its id, and a record with the accepted id
    has [is_read] true and, when it carried an invitation, carries it with
    [accepted] true. So every record of the new list with that id is read
    and, if it has an invitation, accepted. *)
Theorem C3_accept_success_read_and_accepted
    (n : Notification) (d : list Notification) (c : Component) :
  _isMounted c = true →
  ∀ c', c' = handleAcceptInvitation_settled n (Fulfilled d) c ∨
        c' = (complete (handleAcceptInvitation n) (Fulfilled d) c).1 →
  notifications (state c')
  = (λ m, if decide (id m = id n) then withReadAccepted m else m)
      <$> notifications (state c) ∧
  Forall2 (λ m0 m, id m = id m0 ∧
                   (id m0 ≠ id n → m = m0) ∧
                   (id m0 = id n →
                    is_read m = true ∧
                    invitation m = withAccepted <$> invitation m0))
          (notifications (state c)) (notifications (state c')) ∧
  (∀ m, m ∈ notifications (state c') → id m = id n →
        is_read m = true ∧
        ∀ v, invitation m = Some v → accepted v = true).
Proof.
  intros Hm c' Hc'.
  assert (Hl : notifications (state c')
               = (λ m, if decide (id m = id n) then withReadAccepted m else m)
                   <$> notifications (state c)).
  { destruct Hc' as [-> | ->];
      unfold complete, handleAcceptInvitation; simpl;
      unfold setStateSafely; destruct c as [s mt]; simpl in *; subst mt;
      simpl; done. }
  split; [done |]. rewrite Hl. split.
  - apply Forall2_fmap_self. intros m0. case_decide as Hd.
    + split_and!; [done | done |]. intros _. split; [done |].
      simpl. by destruct (invitation m0).
    + split_and!; done.
  - intros m (m0 & -> & _)%list_elem_of_fmap Hid.
    case_decide as Hd.
    + split; [done |]. intros v. simpl.
      destruct (invitation m0); [| done]. by intros [= <-].
    + by destruct Hd.
Qed.

Lemma C3_witness :
  _isMounted idle = true ∧
  ∀ c', c' = handleAcceptInvitation_settled invite7 (Fulfilled []) idle ∨
        c' = (complete (handleAcceptInvitation invite7) (Fulfilled []) idle).1 →
  notifications (state c')
  = (λ m, if decide (id m = id invite7) then withReadAccepted m else m)
      <$> notifications (state idle) ∧
  Forall2 (λ m0 m, id m = id m0 ∧
                   (id m0 ≠ id invite7 → m = m0) ∧
                   (id m0 = id invite7 →
                    is_read m = true ∧
                    invitation m = withAccepted <$> invitation m0))
          (notifications (state idle)) (notifications (state c')) ∧
  (∀ m, m ∈ notifications (state c') → id m = id invite7 →
        is_read m = true ∧
        ∀ v, invitation m = Some v → accepted v = true).
Proof.
  split; [reflexivity |].
  apply (C3_accept_success_read_and_accepted invite7 [] idle). reflexivity.
Defined.

(** ** Failures *)

Lemma errorMessage_nonempty e fallback :
  fallback ≠ "" → errorMessage e fallback ≠ "".
Proof.
  intros H. unfold errorMessage. destruct (detail e) as [d|]; [|done].
  by case_decide.
Qed.

Lemma truthy_nonempty msg : msg ≠ "" → truthy (Some msg) = Some msg.
Proof. intros H. simpl. by case_decide. Qed.

Lemma renderAlerts_error c msg :
  error (state c) = Some msg → msg ≠ "" →
  head (renderAlerts c) = Some {| color := "danger"; text := msg |}.
Proof.
  intros He Hne. unfold renderAlerts. by rewrite He, (truthy_nonempty _ Hne).
Qed.

Lemma renderAlerts_error_only c msg :
  error (state c) = Some msg → msg ≠ "" → info (state c) = None →
  renderAlerts c = [ {| color := "danger"; text := msg |} ].
Proof.
  intros He Hne Hi. unfold renderAlerts.
  by rewrite He, Hi, (truthy_nonempty _ Hne).
Qed.

(** C8. On a mounted component, when the awaited call is rejected: after
    [handleMarkRead] on an unread notification the list is the one before
    the action, the id is no longer in [markingIds], [error] holds a
    non-empty message that is rendered first, in the danger colour, and
    [info] is untouched; after [handleAcceptInvitation] the list is the one
    before the action, [acceptingId] is null, and the only alert rendered
    is the error, in the danger colour. Whatever state the rejection meets
    (mounted or not, other handlers having run in between), it leaves the
    list as it finds it. *)
Theorem C8_failure_keeps_list_and_surfaces_error
    (n : Notification) (e : ServiceError) (c : Component) :
  _isMounted c = true →
  (is_read n = false →
   (let c' := (complete (handleMarkRead n) (Rejected e) c).1 in
    notifications (state c') = notifications (state c) ∧
    (id n ∉ markingIds (state c')) ∧
    info (state c') = info (state c) ∧
    ∃ msg, msg ≠ "" ∧ error (state c') = Some msg ∧
           head (renderAlerts c')
           = Some {| color := "danger"; text := msg |})) ∧
  (let c' := (complete (handleAcceptInvitation n) (Rejected e) c).1 in
   notifications (state c') = notifications (state c) ∧
   acceptingId (state c') = None ∧
   ∃ msg, msg ≠ "" ∧ error (state c') = Some msg ∧
          renderAlerts c' = [ {| color := "danger"; text := msg |} ]) ∧
  (∀ c2, notifications (state (handleMarkRead_settled n (Rejected e) c2))
         = notifications (state c2) ∧
         notifications (state (handleAcceptInvitation_settled n (Rejected e) c2))
         = notifications (state c2)) ∧
  "danger" ≠ "success".
Proof.
  intros Hm. destruct c as [s mt]. simpl in Hm. subst mt.
  split; [| split; [| split; [| done]]];
    [| | intros [s2 [|]]; by split].
  - intros Hr. unfold complete, handleMarkRead. rewrite Hr.
    cbn -[renderAlerts]. repeat split.
    + unfold setDelete. rewrite elem_of_difference, elem_of_singleton.
      by intros [_ ?].
    + exists (errorMessage e "Unable to mark notification as read.").
      assert (Hne : errorMessage e "Unable to mark notification as read." ≠ "")
        by by apply errorMessage_nonempty.
      repeat split; [done |]. by apply renderAlerts_error.
  - unfold complete, handleAcceptInvitation. cbn -[renderAlerts].
    repeat split.
    exists (errorMessage e "Unable to accept invitation.").
    assert (Hne : errorMessage e "Unable to accept invitation." ≠ "")
      by by apply errorMessage_nonempty.
    repeat split; [done |]. by apply renderAlerts_error_only.
Qed.

Lemma C8_witness :
  _isMounted busy = true ∧ is_read invite7 = false ∧
  (let c' := (complete (handleMarkRead invite7) (Rejected noDetail) busy).1 in
   notifications (state c') = notifications (state busy) ∧
   (id invite7 ∉ markingIds (state c')) ∧
   info (state c') = info (state busy) ∧
   ∃ msg, msg ≠ "" ∧ error (state c') = Some msg ∧
          head (renderAlerts c')
          = Some {| color := "danger"; text := msg |}).
Proof.
  split; [reflexivity |]. split; [reflexivity |].
  apply (C8_failure_keeps_list_and_surfaces_error invite7 noDetail busy);
    reflexivity.
Defined.

(** ** Marking read twice *)

Lemma fmap_idempotent {A} (f : A → A) (l : list A) :
  (∀ x, f (f x) = f x) → f <$> (f <$> l) = f <$> l.
Proof.
  intros H. induction l as [|x l IH]; [done |].
  by rewrite !fmap_cons, H, IH.
Qed.

Lemma markOne_idempotent (i : Z) (m : Notification) :
  let f := λ m, if decide (id m = i) then withRead m else m in
  f (f m) = f m.
Proof. simpl. repeat case_decide; simpl in *; done. Qed.

Lemma add_delete_again (i : Z) (M : gset Z) :
  setDelete i (setAdd i (setDelete i (setAdd i M))) = setDelete i (setAdd i M).
Proof.
  unfold setDelete, setAdd. apply set_eq. intros x.
  repeat (rewrite elem_of_difference || rewrite elem_of_union
          || rewrite elem_of_singleton).
  tauto.
Qed.

Lemma handleMarkRead_read m c r :
  is_read m = true → complete (handleMarkRead m) r c = (c, []).
Proof. intros H. unfold complete, handleMarkRead. by rewrite H. Qed.

(** C5. [handleMarkRead] on a notification whose [is_read] is true sends
    nothing and changes nothing. For a notification [n] of the list of a
    mounted component: running the handler on [n] a second time (both calls
    fulfilled) gives the component the first run gave; after the first run
    the record at [n]'s position is read, and the handler run on that
    record, however the call would settle, sends nothing and changes
    nothing. *)
Theorem C5_markRead_idempotent
    (n : Notification) (d1 d2 : list Notification) (c : Component) (i : nat) :
  _isMounted c = true →
  notifications (state c) !! i = Some n →
  let once := (complete (handleMarkRead n) (Fulfilled d1) c).1 in
  (∀ m c0 r, is_read m = true → complete (handleMarkRead m) r c0 = (c0, [])) ∧
  (complete (handleMarkRead n) (Fulfilled d2) once).1 = once ∧
  ∃ n', notifications (state once) !! i = Some n' ∧
        id n' = id n ∧ is_read n' = true ∧
        ∀ r, complete (handleMarkRead n') r once = (once, []).
Proof.
  intros Hm Hi once. split; [intros m c0 r; apply handleMarkRead_read |].
  destruct c as [s mt]. simpl in Hm, Hi. subst mt. subst once.
  unfold complete, handleMarkRead.
  destruct (is_read n) eqn:Hr; simpl.
  - rewrite ?Hr. simpl. split; [done |].
    exists n. repeat split; try done. by rewrite Hr.
  - rewrite ?Hr. unfold setStateSafely, setState. simpl. split.
    + f_equal. f_equal.
      * apply fmap_idempotent. intros m. apply markOne_idempotent.
      * apply add_delete_again.
    + exists (withRead n). rewrite list_lookup_fmap, Hi. simpl.
      rewrite decide_True by done. done.
Qed.

Lemma C5_witness :
  _isMounted idle = true ∧
  notifications (state idle) !! 0%nat = Some invite7 ∧
  let once := (complete (handleMarkRead invite7) (Fulfilled []) idle).1 in
  (∀ m c0 r, is_read m = true → complete (handleMarkRead m) r c0 = (c0, [])) ∧
  (complete (handleMarkRead invite7) (Fulfilled []) once).1 = once ∧
  ∃ n', notifications (state once) !! 0%nat = Some n' ∧
        id n' = id invite7 ∧ is_read n' = true ∧
        ∀ r, complete (handleMarkRead n') r once = (once, []).
Proof.
  split; [reflexivity |]. split; [reflexivity |].
  apply (C5_markRead_idempotent invite7 [] [] idle 0); reflexivity.
Defined.

(** ** In-flight markers and the rendered buttons *)

(** The claim of C2 fails on the handlers themselves: with notification 7
    in [markingIds] and in [acceptingId], [handleMarkRead] still sends
    [markNotificationRead 7] and [handleAcceptInvitation] still sends
    [acceptProjectInvitation 7], and the fulfilled accept rewrites the
    list. *)
Lemma C2_counterexample :
  inFlight busy (MarkRead invite7) ∧
  inFlight busy (AcceptInvitation invite7) ∧
  (complete (handleMarkRead invite7) (Fulfilled []) busy).2
    = [markNotificationRead 7] ∧
  (complete (handleAcceptInvitation invite7) (Fulfilled []) busy).2
    = [acceptProjectInvitation 7] ∧
  notifications
    (state (complete (handleAcceptInvitation invite7) (Fulfilled []) busy).1)
    ≠ notifications (state busy).
Proof.
  split; [simpl; by apply elem_of_singleton |].
  split; [reflexivity |]. split; [reflexivity |]. split; [reflexivity |].
  simpl. intros [=].
Qed.

(** C2 (amended). The guard against a duplicate command is the [disabled]
    attribute of the rendered button, not a test in the handler: every
    button rendered for a notification (and the mark-all button) whose
    action is in flight ([markingIds] has the id, [acceptingId] is the id,
    [markAllInProgress] is set) is disabled, so a click on it sends nothing
    and leaves the component as it is; the handlers themselves do not look
    at the in-flight markers: [handleMarkRead] on an unread notification and
    [handleAcceptInvitation] on any notification always send their
    request. *)
Theorem C2_in_flight_button_is_disabled
    (c : Component) (n : Notification) (b : Button) :
  b ∈ renderNotificationActions c n ∨ b = renderMarkAll c →
  inFlight c (onClick b) →
  disabled b = true ∧ click b c = (c, None) ∧
  (∀ m c0 r, is_read m = false →
     (complete (handleMarkRead m) r c0).2 = [markNotificationRead (id m)]) ∧
  (∀ m c0 r,
     (complete (handleAcceptInvitation m) r c0).2
     = [acceptProjectInvitation (id m)]).
Proof.
  intros Hb Hin.
  assert (Hd : disabled b = true).
  { destruct Hb as [Hb | ->]; [| done].
    unfold renderNotificationActions in Hb.
    destruct (bool_decide (notification_type n = "project_invitation")
              && invitationPending n).
    - apply elem_of_cons in Hb as [-> | Hb]; simpl in *.
      + by apply bool_decide_eq_true.
      + apply list_elem_of_singleton in Hb as ->. simpl in *.
        by apply bool_decide_eq_true.
    - apply list_elem_of_singleton in Hb as ->. simpl in *.
      apply orb_true_iff. right. by apply bool_decide_eq_true. }
  split; [done |]. split; [unfold click; by rewrite Hd |]. split.
  - intros m c0 r Hr. unfold complete, handleMarkRead. by rewrite Hr.
  - intros m c0 r. done.
Qed.

Lemma C2_witness :
  (renderMarkRead7 ∈ renderNotificationActions busy invite7
   ∨ renderMarkRead7 = renderMarkAll busy) ∧
  inFlight busy (onClick renderMarkRead7) ∧
  disabled renderMarkRead7 = true ∧
  click renderMarkRead7 busy = (busy, None) ∧
  (∀ m c0 r, is_read m = false →
     (complete (handleMarkRead m) r c0).2 = [markNotificationRead (id m)]) ∧
  (∀ m c0 r,
     (complete (handleAcceptInvitation m) r c0).2
     = [acceptProjectInvitation (id m)]).
Proof.
  assert (H1 : renderMarkRead7 ∈ renderNotificationActions busy invite7
               ∨ renderMarkRead7 = renderMarkAll busy).
  { left. vm_compute. apply list_elem_of_further, list_elem_of_here. }
  assert (H2 : inFlight busy (onClick renderMarkRead7)).
  { simpl. by apply elem_of_singleton. }
  split; [exact H1 |]. split; [exact H2 |].
  exact (C2_in_flight_button_is_disabled busy invite7 renderMarkRead7 H1 H2).
Defined.

(** ** Pessimistic updates *)

(** The claim of C7 fails on the optimistic transition: on the idle
    component, [handleMarkRead] on the unread notification 7 (not in
    flight) sends its request while the list still is the one before the
    action, notification 7 unread; and so does [handleAcceptInvitation],
    notification 7 unread and not accepted. On the read notification 8
    (not in flight either) [handleMarkRead] returns at once: no marker, no
    request. *)
Lemma C7_counterexample :
  ¬ inFlight idle (MarkRead invite7) ∧
  ¬ inFlight idle (AcceptInvitation invite7) ∧
  fst <$> (handleMarkRead invite7 idle).2 = Some (markNotificationRead 7) ∧
  notifications (state (handleMarkRead invite7 idle).1) = [invite7; task8] ∧
  fst <$> (handleAcceptInvitation invite7 idle).2
    = Some (acceptProjectInvitation 7) ∧
  notifications (state (handleAcceptInvitation invite7 idle).1)
    = [invite7; task8] ∧
  is_read invite7 = false ∧
  (accepted <$> invitation invite7) = Some false ∧
  ¬ inFlight idle (MarkRead task8) ∧
  fst <$> (handleMarkRead task8 idle).2 = None ∧
  (handleMarkRead task8 idle).1 = idle.
Proof.
  split; [simpl; apply not_elem_of_empty |].
  split; [simpl; intros [=] |].
  split_and!; try reflexivity. simpl. apply not_elem_of_empty.
Qed.

(** C7 (amended). On a mounted component the update is applied after the
    response, not before: starting [handleMarkRead] on an unread
    notification puts its id in [markingIds], starting
    [handleAcceptInvitation] puts the id in [acceptingId], both send their
    request and leave the list as it was; when the call is fulfilled the
    transition is applied to the list the component then has ([is_read],
    and [accepted] for an accept, set on the records with that id, whatever
    the response carries) and the in-flight marker is removed. *)
Theorem C7_marker_then_request_then_update
    (n : Notification) (c : Component) :
  _isMounted c = true →
  (is_read n = false →
   ∃ c1, handleMarkRead n c
         = (c1, Some (markNotificationRead (id n), handleMarkRead_settled n)) ∧
         inFlight c1 (MarkRead n) ∧
         notifications (state c1) = notifications (state c)) ∧
  (∃ c1, handleAcceptInvitation n c
         = (c1, Some (acceptProjectInvitation (id n),
                      handleAcceptInvitation_settled n)) ∧
         inFlight c1 (AcceptInvitation n) ∧
         notifications (state c1) = notifications (state c)) ∧
  (∀ d, let c3 := handleMarkRead_settled n (Fulfilled d) c in
        ¬ inFlight c3 (MarkRead n) ∧
        notifications (state c3)
        = (λ m, if decide (id m = id n) then withRead m else m)
            <$> notifications (state c)) ∧
  (∀ d, let c3 := handleAcceptInvitation_settled n (Fulfilled d) c in
        ¬ inFlight c3 (AcceptInvitation n) ∧
        notifications (state c3)
        = (λ m, if decide (id m = id n) then withReadAccepted m else m)
            <$> notifications (state c)).
Proof.
  intros Hm. destruct c as [s mt]. simpl in Hm. subst mt.
  split; [| split; [| split]].
  - intros Hr. unfold handleMarkRead. rewrite Hr. eexists. split; [done |].
    cbn. split; [| done]. unfold setAdd. apply elem_of_union_r.
    by apply elem_of_singleton.
  - eexists. split; [done |]. cbn. done.
  - intros d. cbn. split; [| done].
    unfold setDelete. rewrite elem_of_difference, elem_of_singleton.
    by intros [_ ?].
  - intros d. cbn. split; [| done]. intros [=].
Qed.

Lemma C7_witness :
  _isMounted idle = true ∧ is_read invite7 = false ∧
  ∃ c1, handleMarkRead invite7 idle
        = (c1, Some (markNotificationRead (id invite7),
                     handleMarkRead_settled invite7)) ∧
        inFlight c1 (MarkRead invite7) ∧
        notifications (state c1) = notifications (state idle).
Proof.
  split; [reflexivity |]. split; [reflexivity |].
  apply (C7_marker_then_request_then_update invite7 idle); reflexivity.
Defined.

(** ** Monotonicity *)

Lemma advanced_refl n : advanced n n.
Proof. split; [done |]. split; [done |]. intros v Hv Ha. by exists v. Qed.

Lemma advanced_trans n1 n2 n3 :
  advanced n1 n2 → advanced n2 n3 → advanced n1 n3.
Proof.
  intros (Hi1 & Hr1 & Ha1) (Hi2 & Hr2 & Ha2).
  split; [congruence |]. split; [auto |].
  intros v Hv Ha. destruct (Ha1 v Hv Ha) as (v' & Hv' & Ha').
  by apply (Ha2 v').
Qed.

Lemma advanced_withRead n : advanced n (withRead n).
Proof. split; [done |]. split; [done |]. intros v Hv Ha. by exists v. Qed.

Lemma advanced_withReadAccepted n : advanced n (withReadAccepted n).
Proof.
  split; [done |]. split; [done |]. intros v Hv Ha. simpl. rewrite Hv.
  by eexists.
Qed.

Lemma list_advanced_refl l : Forall2 advanced l l.
Proof. apply Forall_Forall2_diag, Forall_forall. intros n _. apply advanced_refl. Qed.

Lemma list_advanced_trans l1 l2 l3 :
  Forall2 advanced l1 l2 → Forall2 advanced l2 l3 → Forall2 advanced l1 l3.
Proof. apply Forall2_trans. apply advanced_trans. Qed.

Lemma handleMarkRead_settled_advancing n : advancing (handleMarkRead_settled n).
Proof.
  intros [d|e] [s [|]]; cbn; try apply list_advanced_refl.
  apply Forall2_fmap_self. intros m. case_decide.
  - apply advanced_withRead.
  - apply advanced_refl.
Qed.

Lemma handleMarkAll_settled_advancing : advancing handleMarkAll_settled.
Proof.
  intros [d|e] [s [|]]; cbn; try apply list_advanced_refl.
  apply Forall2_fmap_self, advanced_withRead.
Qed.

Lemma handleAcceptInvitation_settled_advancing n :
  advancing (handleAcceptInvitation_settled n).
Proof.
  intros [d|e] [s [|]]; cbn; try apply list_advanced_refl.
  apply Forall2_fmap_self. intros m. case_decide.
  - apply advanced_withReadAccepted.
  - apply advanced_refl.
Qed.

(** Starting a handler does not touch the list, and what it awaits with
    is advancing. *)
Lemma dispatch_start a c :
  notifications (state (dispatch a c).1) = notifications (state c) ∧
  ∀ req k, (dispatch a c).2 = Some (req, k) → advancing k.
Proof.
  destruct a as [n| |n]; simpl.
  - unfold handleMarkRead. destruct (is_read n); simpl.
    + split; [done | intros ?? [=]].
    + split; [by destruct c as [s [|]] |].
      intros ?? [= <- <-]. apply handleMarkRead_settled_advancing.
  - split; [by destruct c as [s [|]] |].
    intros ?? [= <- <-]. apply handleMarkAll_settled_advancing.
  - split; [by destruct c as [s [|]] |].
    intros ?? [= <- <-]. apply handleAcceptInvitation_settled_advancing.
Qed.

Lemma step_advances s e :
  pending_advancing s → isMount e = false →
  pending_advancing (step s e) ∧
  Forall2 advanced (notifications (state (component s)))
                   (notifications (state (component (step s e)))).
Proof.
  intros Hs He. destruct e as [| |a|i r| |]; simpl in *; try done.
  - split; [done | apply list_advanced_refl].
  - unfold launch. pose proof (dispatch_start a (component s)) as [H1 H2].
    destruct (dispatch a (component s)) as [c' [[req k]|]]; simpl in *.
    + split; [| rewrite H1; apply list_advanced_refl].
      apply Forall_app. split; [done |].
      constructor; [| constructor]. by apply (H2 req).
    + split; [done | rewrite H1; apply list_advanced_refl].
  - destruct (pending s !! i) as [[req k]|] eqn:E.
    + unfold pending_advancing in *. simpl. split; [by apply Forall_delete |].
      rewrite Forall_lookup in Hs. by apply (Hs i (req, k) E).
    + split; [done | apply list_advanced_refl].
  - split; [done |]. destruct (component s) as [st [|]]; cbn;
      apply list_advanced_refl.
  - split; [done |]. destruct (component s) as [st [|]]; cbn;
      apply list_advanced_refl.
Qed.

Lemma run_advances evs : ∀ s,
  pending_advancing s → Forall (λ e, isMount e = false) evs →
  pending_advancing (run s evs) ∧
  Forall2 advanced (notifications (state (component s)))
                   (notifications (state (component (run s evs)))).
Proof.
  induction evs as [|e evs IH]; intros s Hs Hevs.
  - split; [done | apply list_advanced_refl].
  - inversion Hevs as [|?? He Hevs']; subst. simpl.
    destruct (step_advances s e Hs He) as [Hs' H1].
    destruct (IH (step s e) Hs' Hevs') as [Hs'' H2].
    split; [done |]. by apply (list_advanced_trans _ _ _ H1).
Qed.

(** C4. Start from any component with nothing pending and let the three
    mutation handlers be started and their calls be fulfilled or rejected
    in any order (an unmount or the dismissal of an alert may fall in
    between): between any two moments of such a run the list keeps its
    records position by position, each with the same id, and no [is_read]
    and no [invitation.accepted] that was true has become false. *)
Theorem C4_flags_never_lowered (c0 : Component) (before after : list Event) :
  Forall (λ e, isMount e = false) before →
  Forall (λ e, isMount e = false) after →
  let s1 := run (boot c0) before in
  let s2 := run s1 after in
  Forall2 advanced (notifications (state (component s1)))
                   (notifications (state (component s2))).
Proof.
  intros Hb Ha s1 s2.
  assert (H0 : pending_advancing (boot c0)) by constructor.
  destruct (run_advances before (boot c0) H0 Hb) as [H1 _].
  by destruct (run_advances after s1 H1 Ha) as [_ H2].
Qed.

Lemma C4_witness :
  Forall (λ e, isMount e = false)
    [Invoke (AcceptInvitation invite7); Settle 0 (Fulfilled [])] ∧
  Forall (λ e, isMount e = false)
    [Invoke (MarkRead invite7); Invoke MarkAll; Settle 1 (Rejected noDetail);
     Settle 0 (Fulfilled []); Unmount] ∧
  let s1 := run (boot idle)
              [Invoke (AcceptInvitation invite7); Settle 0 (Fulfilled [])] in
  let s2 := run s1
              [Invoke (MarkRead invite7); Invoke MarkAll;
               Settle 1 (Rejected noDetail); Settle 0 (Fulfilled []);
               Unmount] in
  Forall2 advanced (notifications (state (component s1)))
                   (notifications (state (component s2))).
Proof.
  split; [repeat constructor |]. split; [repeat constructor |].
  apply (C4_flags_never_lowered idle); repeat constructor.
Defined.

End ClientProofs.

(** * Properties of the service of record *)

Module ServiceProofs.
Import Service.

(** ** Marking all read *)

Lemma markRead_unread u n (st : gmap Z Notification) :
  st !! id n = Some n → recipientId n = u → isRead n = false →
  markRead u (id n) st = (Updated, <[id n := setRead true n]> st).
Proof.
  intros Hst Hu Hr. unfold markRead, get, compareAndSetRead.
  rewrite Hst, Hu, bool_decide_eq_true_2 by done.
  by rewrite Hr, bool_decide_eq_true_2.
Qed.

Lemma foldl_markOne u (L : list Notification) :
  ∀ count (st : gmap Z Notification),
  NoDup (id <$> L) →
  (∀ n, n ∈ L → st !! id n = Some n ∧ recipientId n = u ∧ isRead n = false) →
  ∃ st' : gmap Z Notification,
    foldl (markOne u) (count, st) L = (count + length L, st') ∧
    ∀ i, st' !! i = if decide (i ∈ id <$> L)
                    then setRead true <$> st !! i else st !! i.
Proof.
  induction L as [|n L IH]; intros count st Hnd HL.
  - exists st. split; [simpl; f_equal; lia |].
    intros i. rewrite decide_False; [done |]. apply not_elem_of_nil.
  - rewrite fmap_cons in Hnd. apply NoDup_cons in Hnd as [Hn Hnd].
    destruct (HL n) as (Hst & Hu & Hr); [apply list_elem_of_here |].
    cbn [foldl length]. unfold markOne at 2. cbn [fst snd].
    rewrite (markRead_unread u n st) by done.
    destruct (IH (S count) (<[id n := setRead true n]> st) Hnd)
      as (st' & Hfold & Hlook).
    { intros n' Hn'. destruct (HL n') as (Hst' & Hu' & Hr');
        [by apply list_elem_of_further |].
      split; [| done]. rewrite lookup_insert_ne; [done |].
      intros Heq. apply Hn. rewrite Heq. apply list_elem_of_fmap. eauto. }
    exists st'. split; [rewrite Hfold; f_equal; lia |].
    intros i. rewrite Hlook. rewrite fmap_cons.
    destruct (decide (i = id n)) as [-> | Hne].
    + rewrite decide_False by done. rewrite lookup_insert_eq.
      rewrite decide_True by apply list_elem_of_here. by rewrite Hst.
    + rewrite lookup_insert_ne by done.
      destruct (decide (i ∈ id <$> L)) as [Hi | Hi].
      * by rewrite decide_True by by apply list_elem_of_further.
      * rewrite decide_False; [done |].
        intros [? | ?]%elem_of_cons; done.
Qed.

Lemma NoDup_fmap_filter {A B} (f : A → B) (P : A → Prop)
    `{∀ x, Decision (P x)} (l : list A) :
  NoDup (f <$> l) → NoDup (f <$> filter P l).
Proof.
  induction l as [|x l IH]; [done |].
  rewrite fmap_cons. intros [Hx Hl]%NoDup_cons. rewrite filter_cons.
  case_decide; [| by apply IH].
  rewrite fmap_cons. apply NoDup_cons. split; [| by apply IH].
  intros (y & Hy & Hin)%list_elem_of_fmap. apply Hx.
  apply list_elem_of_fmap. exists y. split; [done |].
  by apply list_elem_of_filter in Hin as [_ ?].
Qed.

Lemma keyed_ids (st : gmap Z Notification) :
  keyed st → id <$> (map_to_list st).*2 = (map_to_list st).*1.
Proof.
  intros Hk.
  assert (H : ∀ l : list (Z * Notification),
             (∀ kv, kv ∈ l → id kv.2 = kv.1) → id <$> l.*2 = l.*1).
  { induction l as [|kv l IH]; intros Hl; [done |].
    rewrite !fmap_cons. f_equal.
    - apply Hl, list_elem_of_here.
    - apply IH. intros kv' Hkv'. by apply Hl, list_elem_of_further. }
  apply H. intros [i n] Hin. simpl. by apply Hk, elem_of_map_to_list.
Qed.

(** The unread notifications of [u], as [markAllRead] walks them. *)
Lemma unread_walk u (st : gmap Z Notification) :
  keyed st →
  let L := filter (λ n, isRead n = false) (listByRecipient u st) in
  NoDup (id <$> L) ∧
  (∀ n, n ∈ L ↔ st !! id n = Some n ∧ recipientId n = u ∧ isRead n = false) ∧
  length L = unreadCount u st.
Proof.
  intros Hk L. subst L. unfold listByRecipient.
  split; [| split].
  - apply NoDup_fmap_filter. rewrite merge_sort_Permutation.
    apply NoDup_fmap_filter. rewrite keyed_ids by done.
    apply NoDup_fst_map_to_list.
  - intros n. rewrite list_elem_of_filter, merge_sort_Permutation.
    rewrite list_elem_of_filter, list_elem_of_fmap. split.
    + intros (Hr & Hu & [i n'] & -> & Hin). simpl in *.
      apply elem_of_map_to_list in Hin. by rewrite (Hk _ _ Hin).
    + intros (Hst & Hu & Hr). split; [done |]. split; [done |].
      exists (id n, n). split; [done |]. by apply elem_of_map_to_list.
  - rewrite merge_sort_Permutation. unfold unreadCount.
    induction (map_to_list st) as [|[i n] l IH]; [done |].
    rewrite fmap_cons. simpl. rewrite !filter_cons. simpl.
    destruct (decide (recipientId n = u)) as [Hu | Hu].
    + rewrite filter_cons. destruct (decide (isRead n = false)) as [Hr | Hr].
      * rewrite decide_True by done. simpl. by rewrite IH.
      * rewrite decide_False by tauto. done.
    + rewrite decide_False by tauto. done.
Qed.

(** C6. Client: on a mounted component, once [handleMarkAll] is fulfilled
    the list is the list before with [is_read] set on every record:
    position by position the same notification, equal in every other
    field, read whether it was unread or read before; what the response
    carries is not looked at, so the handler itself reports no count.
    Service: [markAllRead] on a store keyed by id returns exactly the number
    of the user's notifications that were unread (N, not N + M), and the
    store afterwards is the store before with [isRead] set on the user's
    records and every other record untouched, so that each of the user's
    notifications, unread or read before, is still stored and read. *)
Theorem C6_markAll_reads_all_and_counts_transitions
    (c : Client.Component) (d : list Client.Notification)
    (u : Z) (st : gmap Z Notification) :
  Client._isMounted c = true →
  keyed st →
  (let c' := (Client.complete Client.handleMarkAll (Client.Fulfilled d) c).1 in
   Client.notifications (Client.state c')
   = Client.withRead <$> Client.notifications (Client.state c) ∧
   Forall2 (λ m0 m, Client.sameButRead m0 m ∧ Client.is_read m = true)
           (Client.notifications (Client.state c))
           (Client.notifications (Client.state c')) ∧
   length (Client.notifications (Client.state c'))
   = length (Client.notifications (Client.state c)) ∧
   (∀ m, m ∈ Client.notifications (Client.state c') →
         Client.is_read m = true) ∧
   (∀ d', Client.complete Client.handleMarkAll (Client.Fulfilled d') c
          = Client.complete Client.handleMarkAll (Client.Fulfilled d) c)) ∧
  (markAllRead u st).1 = unreadCount u st ∧
  (∀ i, (markAllRead u st).2 !! i
        = (λ n, if decide (recipientId n = u) then setRead true n else n)
            <$> st !! i) ∧
  (∀ i n, st !! i = Some n → recipientId n = u →
          ∃ n', (markAllRead u st).2 !! i = Some n' ∧ isRead n' = true).
Proof.
  intros Hm Hk. split.
  - destruct c as [s mt]. simpl in Hm. subst mt. cbn.
    split_and!; [done | | by rewrite length_fmap | | done].
    + apply ClientProofs.Forall2_fmap_self. intros m.
      split; [apply ClientProofs.sameButRead_withRead | done].
    + intros m (m0 & -> & _)%list_elem_of_fmap. done.
  - destruct (unread_walk u st Hk) as (Hnd & HL & Hlen).
    unfold markAllRead.
    destruct (foldl_markOne u _ 0 st Hnd) as (st' & Hfold & Hlook).
    { intros n Hn. by apply HL. }
    rewrite Hfold. simpl.
    assert (Hunread : ∀ i n, st !! i = Some n → recipientId n = u →
              i ∉ id <$> filter (λ n, isRead n = false) (listByRecipient u st) →
              isRead n = true).
    { intros i n Hst Hu Hi. destruct (isRead n) eqn:Hr; [done |].
      exfalso. apply Hi. apply list_elem_of_fmap. exists n.
      split; [by rewrite (Hk _ _ Hst) |]. apply HL. by rewrite (Hk _ _ Hst). }
    split_and!; [done | |].
    + intros i. rewrite Hlook.
      destruct (st !! i) as [n|] eqn:Hst; simpl; [| by case_decide].
      case_decide as Hi.
      * apply list_elem_of_fmap in Hi as (n0 & -> & Hn0).
        apply HL in Hn0 as (Hst0 & Hu0 & _).
        rewrite Hst in Hst0. injection Hst0 as ->.
        by rewrite decide_True.
      * case_decide as Hu; [| done]. f_equal.
        pose proof (Hunread i n Hst Hu Hi) as Hr.
        destruct n. simpl in *. by subst.
    + intros i n Hst Hu. rewrite Hlook, Hst. simpl.
      case_decide as Hi; [by eexists |].
      exists n. split; [done |]. by apply (Hunread i).
Qed.

Lemma keyed_sampleStore : keyed sampleStore.
Proof.
  intros i n. unfold sampleStore.
  rewrite lookup_insert. case_decide as H7; [by intros [= <-] |].
  rewrite lookup_insert. case_decide as H8; [by intros [= <-] |].
  by rewrite lookup_empty.
Qed.

Lemma C6_witness :
  Client._isMounted Client.idle = true ∧
  keyed sampleStore ∧
  (let c' := (Client.complete Client.handleMarkAll (Client.Fulfilled [])
                Client.idle).1 in
   Client.notifications (Client.state c')
   = Client.withRead <$> Client.notifications (Client.state Client.idle) ∧
   Forall2 (λ m0 m, Client.sameButRead m0 m ∧ Client.is_read m = true)
           (Client.notifications (Client.state Client.idle))
           (Client.notifications (Client.state c')) ∧
   length (Client.notifications (Client.state c'))
   = length (Client.notifications (Client.state Client.idle)) ∧
   (∀ m, m ∈ Client.notifications (Client.state c') →
         Client.is_read m = true) ∧
   (∀ d', Client.complete Client.handleMarkAll (Client.Fulfilled d')
            Client.idle
          = Client.complete Client.handleMarkAll (Client.Fulfilled [])
              Client.idle)) ∧
  (markAllRead 1 sampleStore).1 = unreadCount 1 sampleStore ∧
  (∀ i, (markAllRead 1 sampleStore).2 !! i
        = (λ n, if decide (recipientId n = 1%Z) then setRead true n else n)
            <$> sampleStore !! i) ∧
  (∀ i n, sampleStore !! i = Some n → recipientId n = 1%Z →
          ∃ n', (markAllRead 1 sampleStore).2 !! i = Some n' ∧
                isRead n' = true).
Proof.
  split; [reflexivity |]. split; [exact keyed_sampleStore |].
  apply (C6_markAll_reads_all_and_counts_transitions Client.idle [] 1
           sampleStore); [reflexivity | exact keyed_sampleStore].
Defined.

(** ** Counting requests *)

Lemma count_insert {A} (P : A → Prop) `{∀ x, Decision (P x)}
    (l : list A) (i : nat) (x y : A) :
  l !! i = Some x →
  length (filter P (<[i := y]> l)) + (if decide (P x) then 1 else 0)
  = length (filter P l) + (if decide (P y) then 1 else 0).
Proof.
  revert i. induction l as [|a l IH]; intros i Hi; [done |].
  destruct i as [|i]; simpl in Hi.
  - injection Hi as ->. change (<[0 := y]> (x :: l)) with (y :: l).
    rewrite !filter_cons.
    destruct (decide (P x)), (decide (P y)); cbn [length]; lia.
  - change (<[S i := y]> (a :: l)) with (a :: <[i := y]> l).
    rewrite !filter_cons. specialize (IH i Hi).
    destruct (decide (P a)), (decide (P x)), (decide (P y));
      cbn [length]; lia.
Qed.

Lemma count_le {A} (P Q : A → Prop) `{∀ x, Decision (P x)}
    `{∀ x, Decision (Q x)} (l : list A) :
  (∀ x, x ∈ l → P x → Q x) → length (filter P l) ≤ length (filter Q l).
Proof.
  induction l as [|a l IH]; intros HPQ; [done |].
  rewrite !filter_cons.
  assert (IH' : length (filter P l) ≤ length (filter Q l)).
  { apply IH. intros x Hx. by apply HPQ, list_elem_of_further. }
  destruct (decide (P a)) as [Ha | Ha].
  - rewrite decide_True by by apply HPQ; [apply list_elem_of_here |].
    simpl. lia.
  - case_decide; simpl; lia.
Qed.

Lemma count_pos {A} (P : A → Prop) `{∀ x, Decision (P x)}
    (l : list A) (i : nat) (x : A) :
  l !! i = Some x → P x → 1 ≤ length (filter P l).
Proof.
  intros Hi Hx.
  assert (Hin : x ∈ filter P l).
  { apply list_elem_of_filter. split; [done |].
    apply list_elem_of_lookup. eauto. }
  destruct (filter P l); [by apply not_elem_of_nil in Hin | simpl; lia].
Qed.

Lemma count_one {A} (P : A → Prop) `{∀ x, Decision (P x)} (l : list A) :
  length (filter P l) = 1 →
  ∃ i x, l !! i = Some x ∧ P x ∧ ∀ j y, l !! j = Some y → P y → j = i.
Proof.
  induction l as [|a l IH]; [done |].
  rewrite filter_cons. destruct (decide (P a)) as [Ha | Ha]; simpl.
  - intros Hlen. exists 0, a. split; [done |]. split; [done |].
    intros [|j] y Hj Hy; [done |]. simpl in Hj.
    pose proof (count_pos P l j y Hj Hy). lia.
  - intros Hlen. destruct (IH Hlen) as (i & x & Hi & Hx & Huniq).
    exists (S i), x. split; [done |]. split; [done |].
    intros [|j] y Hj Hy; simpl in Hj.
    + by injection Hj as ->.
    + f_equal. by apply (Huniq j y).
Qed.

Lemma observers_insert o cs i c c' :
  cs !! i = Some c →
  observers o (<[i := c']> cs)
    + (if decide (observed (pc c) = Some o) then 1 else 0)
  = observers o cs + (if decide (observed (pc c') = Some o) then 1 else 0).
Proof.
  intros Hc. unfold observers.
  exact (count_insert (λ c, observed (pc c) = Some o) cs i c c' Hc).
Qed.

Lemma granted_insert cs i c c' :
  cs !! i = Some c →
  granted (<[i := c']> cs) + (if decide (pastGrant (pc c)) then 1 else 0)
  = granted cs + (if decide (pastGrant (pc c')) then 1 else 0).
Proof.
  intros Hc. unfold granted.
  exact (count_insert (λ c, pastGrant (pc c)) cs i c c' Hc).
Qed.

Lemma pastGrant_observed p : pastGrant p → observed p = Some Accepted.
Proof. by destruct p as [| | |[]|[]]. Qed.

Lemma granted_le_observers cs : granted cs ≤ observers Accepted cs.
Proof.
  apply (count_le (λ c, pastGrant (pc c)) (λ c, observed (pc c) = Some Accepted)).
  intros c _. apply pastGrant_observed.
Qed.

(** ** The race on one invitation *)

Lemma count_replicate {A} (P : A → Prop) `{∀ x, Decision (P x)} k (x : A) :
  ¬ P x → length (filter P (replicate k x)) = 0.
Proof.
  intros Hx. induction k as [|k IH]; [done |].
  change (replicate (S k) x) with (x :: replicate k x).
  by rewrite filter_cons, decide_False.
Qed.

Lemma withStore_same w : withStore w (store w) = w.
Proof. by destruct w. Qed.

Lemma raceInv_start k u nid w n v :
  store w !! nid = Some n → recipientId n = u → type n = project_invitation →
  invitation n = Some v → accepted v = false →
  raceInv u nid (teamId v) w {| world := w; calls := racing k u nid |}.
Proof.
  intros Hst Hu Hty Hinv Hacc.
  assert (HG : granted (racing k u nid) = 0).
  { unfold granted, racing.
    apply (count_replicate (λ c, pastGrant (pc c))). simpl. tauto. }
  assert (HO : ∀ o, observers o (racing k u nid) = 0).
  { intros o. unfold observers, racing.
    by apply (count_replicate (λ c, observed (pc c) = Some o)). }
  split_and!; simpl.
  - intros j c [-> _]%lookup_replicate. simpl. split_and!; done.
  - done.
  - by rewrite HG, app_nil_r.
  - exists n, v. rewrite Hacc. split_and!; try done; by rewrite HO.
Qed.

(** Replacing the request at [i] by one of the same caller that is still
    legitimate keeps the per-request part of the invariant. *)
Lemma calls_insert_ok (u nid t : Z) (w0 : World)
    (cs : list Call) (i : nat) (c' : Call) :
  (∀ j c, cs !! j = Some c →
          userId c = u ∧ notificationId c = nid ∧ legit (pc c) ∧
          (t ∈ teams w0 →
           pc c ≠ Resolved RejectedGrant ∧ pc c ≠ Returned Failed)) →
  userId c' = u → notificationId c' = nid → legit (pc c') →
  (t ∈ teams w0 → pc c' ≠ Resolved RejectedGrant ∧ pc c' ≠ Returned Failed) →
  ∀ j c, <[i := c']> cs !! j = Some c →
         userId c = u ∧ notificationId c = nid ∧ legit (pc c) ∧
         (t ∈ teams w0 →
          pc c ≠ Resolved RejectedGrant ∧ pc c ≠ Returned Failed).
Proof.
  intros Hcs Hu Hn Hl Hok j c Hj.
  apply list_lookup_insert_Some in Hj as [(-> & -> & _) | (_ & Hj)].
  - done.
  - by apply (Hcs j).
Qed.

(** Evaluate the closed [if decide ... then 1 else 0] terms of a counting
    equation. *)
Ltac eval_counts H :=
  repeat match type of H with
  | context [match @decide ?P ?d with left _ => 1 | right _ => 0 end] =>
      let x := eval vm_compute in
                 (match @decide P d with left _ => 1 | right _ => 0 end) in
      change (match @decide P d with left _ => 1 | right _ => 0 end)
        with x in H
  end.

Lemma sched_step_raceInv u nid t w0 s i :
  raceInv u nid t w0 s → raceInv u nid t w0 (sched_step s i).
Proof.
  intros (Hcalls & Hteams & Hissued & n & v & Hst & Hu & Hty & Hinv & Ht
          & HA & HB).
  unfold sched_step. destruct (calls s !! i) as [c|] eqn:Hc.
  2: { split_and!; try done. by exists n, v. }
  destruct (Hcalls i c Hc) as (Hcu & Hcn & Hleg & Hok).
  destruct s as [w cs]. destruct c as [cu cn p].
  cbn [world calls userId notificationId pc] in *. subst cu cn.
  assert (Hins : ∀ p', legit p' →
            (t ∈ teams w0 →
             p' ≠ Resolved RejectedGrant ∧ p' ≠ Returned Failed) →
            ∀ j c, <[i := {| userId := u; notificationId := nid; pc := p' |}]>
                     cs !! j = Some c →
              userId c = u ∧ notificationId c = nid ∧ legit (pc c) ∧
              (t ∈ teams w0 →
               pc c ≠ Resolved RejectedGrant ∧ pc c ≠ Returned Failed)).
  { intros p' Hl' Hok'. by apply calls_insert_ok. }
  assert (Hcount : ∀ p',
    let c' := {| userId := u; notificationId := nid; pc := p' |} in
    observers Accepted (<[i := c']> cs)
      + (if decide (observed p = Some Accepted) then 1 else 0)
    = observers Accepted cs
      + (if decide (observed p' = Some Accepted) then 1 else 0) ∧
    observers AlreadyAccepted (<[i := c']> cs)
      + (if decide (observed p = Some AlreadyAccepted) then 1 else 0)
    = observers AlreadyAccepted cs
      + (if decide (observed p' = Some AlreadyAccepted) then 1 else 0) ∧
    granted (<[i := c']> cs) + (if decide (pastGrant p) then 1 else 0)
    = granted cs + (if decide (pastGrant p') then 1 else 0)).
  { intros p' c'. split_and!.
    - apply (observers_insert Accepted cs i _ c' Hc).
    - apply (observers_insert AlreadyAccepted cs i _ c' Hc).
    - apply (granted_insert cs i _ c' Hc). }
  unfold step_call, goto. cbn [pc userId notificationId].
  destruct p as [| | |r|o].
  - (* the checks pass *)
    unfold get. rewrite Hst, Hu, Hty, !bool_decide_eq_true_2 by done.
    destruct (Hcount Validated) as (HA' & HB' & HG'). eval_counts HA'; eval_counts HB'; eval_counts HG'.
    split_and!; cbn [world calls].
    + by apply Hins.
    + done.
    + rewrite Hissued. do 2 f_equal. lia.
    + exists n, v. split_and!; try done; [| intros Hv; specialize (HB Hv)]; lia.
  - (* the compare-and-set *)
    unfold compareAndSetInvitationAccepted. rewrite Hst, Hinv.
    destruct (accepted v) eqn:Hacc.
    + destruct (Hcount (Resolved AlreadyGranted)) as (HA' & HB' & HG').
      eval_counts HA'; eval_counts HB'; eval_counts HG'. rewrite withStore_same.
      split_and!; cbn [world calls].
      * by apply Hins.
      * done.
      * rewrite Hissued. do 2 f_equal. lia.
      * exists n, v. rewrite Hacc. split_and!; try done. lia.
    + destruct (Hcount Swapped) as (HA' & HB' & HG').
      eval_counts HA'; eval_counts HB'; eval_counts HG'. specialize (HB eq_refl).
      split_and!; cbn [world calls withStore store teams issued].
      * by apply Hins.
      * done.
      * rewrite Hissued. do 2 f_equal. lia.
      * exists (setAccepted n). eexists.
        rewrite lookup_insert_eq. cbn. rewrite Hinv. cbn.
        split_and!; try done. cbn. lia.
  - (* the membership grant *)
    unfold get. rewrite Hst. cbn [mbind option_bind]. rewrite Hinv.
    unfold grantMembership. rewrite Ht, Hteams.
    destruct (decide (t ∈ teams w0)) as [Hin | Hin].
    + rewrite bool_decide_eq_true_2 by done.
      destruct (Hcount (Resolved Granted)) as (HA' & HB' & HG').
      eval_counts HA'; eval_counts HB'; eval_counts HG'.
      split_and!; cbn [world calls store teams issued].
      * by apply Hins.
      * done.
      * rewrite Hissued, <- app_assoc. f_equal.
        replace (granted (<[i := {| userId := u; notificationId := nid;
                                    pc := Resolved Granted |}]> cs))
          with (granted cs + 1) by lia.
        by rewrite replicate_add.
      * exists n, v. split_and!; try done; [| intros Hv; specialize (HB Hv)];
          lia.
    + rewrite bool_decide_eq_false_2 by done.
      destruct (Hcount (Resolved RejectedGrant)) as (HA' & HB' & HG').
      eval_counts HA'; eval_counts HB'; eval_counts HG'.
      split_and!; cbn [world calls store teams issued].
      * by apply Hins.
      * done.
      * rewrite Hissued, <- app_assoc. f_equal.
        replace (granted (<[i := {| userId := u; notificationId := nid;
                                    pc := Resolved RejectedGrant |}]> cs))
          with (granted cs + 1) by lia.
        by rewrite replicate_add.
      * exists n, v. split_and!; try done; [| intros Hv; specialize (HB Hv)];
          lia.
  - (* forcing isRead and returning *)
    assert (Halter : alter (setRead true) nid (store w) !! nid
                     = Some (setRead true n)).
    { by rewrite lookup_alter, decide_True, Hst. }
    destruct r.
    + destruct (Hcount (Returned OAccepted)) as (HA' & HB' & HG').
      eval_counts HA'; eval_counts HB'; eval_counts HG'.
      split_and!; cbn [world calls withStore store teams issued].
      * apply Hins; [done |]. intros Hin. by split.
      * done.
      * rewrite Hissued. do 2 f_equal. lia.
      * exists (setRead true n), v.
        split_and!; try done; [| intros Hv; specialize (HB Hv)]; lia.
    + destruct (Hcount (Returned OAlreadyAccepted)) as (HA' & HB' & HG').
      eval_counts HA'; eval_counts HB'; eval_counts HG'.
      split_and!; cbn [world calls withStore store teams issued].
      * apply Hins; [done |]. intros Hin. by split.
      * done.
      * rewrite Hissued. do 2 f_equal. lia.
      * exists (setRead true n), v.
        split_and!; try done; [| intros Hv; specialize (HB Hv)]; lia.
    + destruct (Hcount (Returned Failed)) as (HA' & HB' & HG').
      eval_counts HA'; eval_counts HB'; eval_counts HG'.
      split_and!; cbn [world calls].
      * apply Hins; [done |]. intros Hin. by destruct (Hok Hin).
      * done.
      * rewrite Hissued. do 2 f_equal. lia.
      * exists n, v.
        split_and!; try done; [| intros Hv; specialize (HB Hv)]; lia.
  - (* already returned *)
    rewrite list_insert_id by done.
    split_and!; try done. by exists n, v.
Qed.

Lemma interleave_raceInv u nid t w0 schedule : ∀ s,
  raceInv u nid t w0 s → raceInv u nid t w0 (interleave s schedule).
Proof.
  induction schedule as [|i schedule IH]; intros s Hs; [done |].
  simpl. by apply IH, sched_step_raceInv.
Qed.

(** ** Every request returns *)

Lemma sched_step_length s i : length (calls (sched_step s i)) = length (calls s).
Proof.
  unfold sched_step. destruct (calls s !! i) as [c|]; [| done].
  destruct (step_call c (world s)) as [c' w']. simpl. apply length_insert.
Qed.

Lemma interleave_length schedule : ∀ s,
  length (calls (interleave s schedule)) = length (calls s).
Proof.
  induction schedule as [|i schedule IH]; intros s; [done |].
  simpl. by rewrite IH, sched_step_length.
Qed.

(** A turn moves a request at least one rank up, until it has returned. *)
Lemma step_call_rank c w :
  Nat.min 4 (S (rank (pc c))) ≤ rank (pc (step_call c w).1).
Proof.
  destruct c as [cu cn p]. unfold step_call. cbn [pc].
  destruct p as [| | |[]|o]; cbn [rank];
    repeat (case_match; cbn [fst goto pc rank]);
    cbn [fst goto pc rank]; lia.
Qed.

Lemma sched_step_lookup_ne s i j :
  i ≠ j → calls (sched_step s i) !! j = calls s !! j.
Proof.
  intros Hne. unfold sched_step. destruct (calls s !! i) as [c|]; [| done].
  destruct (step_call c (world s)) as [c' w']. simpl.
  by apply list_lookup_insert_ne.
Qed.

Lemma sched_step_lookup_eq s i c :
  calls s !! i = Some c →
  calls (sched_step s i) !! i = Some (step_call c (world s)).1.
Proof.
  intros Hc. unfold sched_step. rewrite Hc.
  destruct (step_call c (world s)) as [c' w']. simpl.
  apply list_lookup_insert_eq. by apply lookup_lt_Some in Hc.
Qed.

Lemma interleave_rank schedule : ∀ s i c,
  calls s !! i = Some c →
  ∃ c', calls (interleave s schedule) !! i = Some c' ∧
        Nat.min 4 (rank (pc c) + turns i schedule) ≤ rank (pc c').
Proof.
  induction schedule as [|j schedule IH]; intros s i c Hc.
  - exists c. split; [done |]. change (turns i []) with 0. lia.
  - cbn [interleave foldl]. unfold turns. rewrite filter_cons.
    destruct (decide (j = i)) as [-> | Hne].
    + pose proof (sched_step_lookup_eq s i c Hc) as Hc1.
      destruct (IH _ i _ Hc1) as (c' & Hc' & Hrank).
      exists c'. split; [done |].
      pose proof (step_call_rank c (world s)). unfold turns in Hrank.
      cbn [length]. lia.
    + assert (Hc1 : calls (sched_step s j) !! i = Some c)
        by by rewrite sched_step_lookup_ne.
      destruct (IH _ i _ Hc1) as (c' & Hc' & Hrank).
      exists c'. split; [done |]. by unfold turns in Hrank.
Qed.

Lemma rank_4 p : 4 ≤ rank p → ∃ o, p = Returned o.
Proof. destruct p; simpl; try lia. eauto. Qed.

Lemma returned_observed o :
  legit (Returned o) →
  (observed (Returned o) = Some Accepted ∧ pastGrant (Returned o)) ∨
  (o = OAlreadyAccepted ∧ ¬ pastGrant (Returned o)).
Proof. destruct o; simpl; intros H; try done; [left | right | left]; auto. Qed.

(** C1. Let [k] concurrent calls of [acceptInvitation], all by the
    recipient, race on one stored invitation that is not yet accepted, each
    call advancing by atomic steps in an arbitrary interleaving. At every
    moment at most one call has seen [Accepted] at the compare-and-set, one
    grant has been issued per call past its grant step (so at most one),
    and the stored invitation is accepted exactly when some call has seen
    [Accepted]: the flag and the winner's observation change in the same
    step. Once every call has had four turns (and there is at least one
    call), every call has returned, exactly one of them saw [Accepted] (it
    returns Accepted when the team exists), every other call returns
    AlreadyAccepted, and exactly one membership grant was issued. *)
Theorem C1_exactly_one_accept
    (k : nat) (u nid : Z) (w : World) (n : Notification) (v : Invitation)
    (schedule : list nat) :
  store w !! nid = Some n → recipientId n = u → type n = project_invitation →
  invitation n = Some v → accepted v = false →
  let s := interleave {| world := w; calls := racing k u nid |} schedule in
  observers Accepted (calls s) ≤ 1 ∧
  granted (calls s) ≤ observers Accepted (calls s) ∧
  issued (world s) = issued w ++ replicate (granted (calls s)) (teamId v, u) ∧
  (observers Accepted (calls s) = 1 ↔
   ∃ n' v', store (world s) !! nid = Some n' ∧ invitation n' = Some v' ∧
            accepted v' = true) ∧
  (0 < k → (∀ i, i < k → 4 ≤ turns i schedule) →
   issued (world s) = issued w ++ [(teamId v, u)] ∧
   ∃ i, i < k ∧
        ∀ j c, calls s !! j = Some c →
               if decide (j = i)
               then observed (pc c) = Some Accepted ∧
                    (∃ o, pc c = Returned o) ∧
                    (teamId v ∈ teams w → pc c = Returned OAccepted)
               else pc c = Returned OAlreadyAccepted).
Proof.
  intros Hst Hu Hty Hinv Hacc s.
  pose proof (interleave_raceInv u nid (teamId v) w schedule _
                (raceInv_start k u nid w n v Hst Hu Hty Hinv Hacc)) as HI.
  fold s in HI.
  destruct HI as (Hcalls & Hteams & Hissued & n' & v' & Hst' & Hu' & Hty'
                  & Hinv' & Ht' & HA & HB).
  assert (Hlen : length (calls s) = k).
  { subst s. rewrite interleave_length. simpl. apply length_replicate. }
  split_and!.
  - rewrite HA. destruct (accepted v'); lia.
  - apply granted_le_observers.
  - done.
  - rewrite HA. split.
    + intros H1. exists n', v'. split_and!; try done.
      destruct (accepted v'); [done | lia].
    + intros (n2 & v2 & Hst2 & Hinv2 & Hacc2).
      rewrite Hst' in Hst2. injection Hst2 as <-.
      rewrite Hinv' in Hinv2. injection Hinv2 as <-. by rewrite Hacc2.
  - intros Hk Hfair.
    (* every call has returned *)
    assert (Hret : ∀ j c, calls s !! j = Some c →
              legit (pc c) ∧ ∃ o, pc c = Returned o).
    { intros j c Hc. destruct (Hcalls j c Hc) as (_ & _ & Hleg & _).
      split; [done |]. apply rank_4.
      assert (Hj : j < k) by (rewrite <- Hlen; by apply lookup_lt_Some in Hc).
      assert (Hc0 : calls {| world := w; calls := racing k u nid |} !! j
                    = Some {| userId := u; notificationId := nid;
                              pc := Called |}).
      { simpl. by apply lookup_replicate. }
      destruct (interleave_rank schedule _ j _ Hc0) as (c' & Hc' & Hrank).
      fold s in Hc'. rewrite Hc in Hc'. injection Hc' as <-.
      specialize (Hfair j Hj). cbn [pc rank] in Hrank. lia. }
    (* so the invitation is accepted, by exactly one of them *)
    assert (Hone : observers Accepted (calls s) = 1).
    { destruct (lookup_lt_is_Some_2 (calls s) 0) as [c Hc]; [lia |].
      destruct (Hret 0 c Hc) as (Hleg & o & Ho). rewrite Ho in Hleg.
      rewrite HA. destruct (accepted v') eqn:Hacc'; [done |].
      destruct (returned_observed o Hleg) as [[Hobs _] | [-> _]].
      - pose proof (count_pos (λ c, observed (pc c) = Some Accepted)
                      (calls s) 0 c Hc) as Hpos.
        cbv beta in Hpos. rewrite Ho in Hpos. specialize (Hpos Hobs).
        unfold observers in HA. lia.
      - pose proof (count_pos (λ c, observed (pc c) = Some AlreadyAccepted)
                      (calls s) 0 c Hc) as Hpos.
        cbv beta in Hpos. rewrite Ho in Hpos. specialize (Hpos eq_refl).
        specialize (HB eq_refl). unfold observers in HB. lia. }
    assert (Hgr : granted (calls s) = 1).
    { rewrite <- Hone. apply Nat.le_antisymm; [apply granted_le_observers |].
      apply (count_le (λ c, observed (pc c) = Some Accepted)
                      (λ c, pastGrant (pc c))).
      intros c [j Hc]%list_elem_of_lookup Hobs.
      destruct (Hret j c Hc) as (Hleg & o & Ho). rewrite Ho in *.
      destruct (returned_observed o Hleg) as [[_ Hp] | [-> _]]; done. }
    split; [by rewrite Hissued, Hgr |].
    destruct (count_one (λ c, observed (pc c) = Some Accepted) (calls s) Hone)
      as (i & ci & Hi & Hobs & Huniq).
    exists i. split; [rewrite <- Hlen; by apply lookup_lt_Some in Hi |].
    intros j c Hc. destruct (Hret j c Hc) as (Hleg & o & Ho).
    destruct (decide (j = i)) as [-> | Hne].
    + rewrite Hi in Hc. injection Hc as ->. split_and!; [done | by eexists |].
      intros Hteam. destruct (Hcalls i c Hi) as (_ & _ & _ & Hok).
      destruct (Hok Hteam) as [_ Hnf]. rewrite Ho in *.
      destruct o; simpl in *; done.
    + rewrite Ho in *.
      destruct (returned_observed o Hleg) as [[Hobs' _] | [-> _]]; [| done].
      exfalso. apply Hne. apply (Huniq j c Hc). by rewrite Ho.
Qed.

Lemma C1_witness :
  store sampleWorld !! 7%Z = Some invitation7 ∧
  recipientId invitation7 = 1%Z ∧
  type invitation7 = project_invitation ∧
  (accepted <$> invitation invitation7) = Some false ∧
  0 < 3 ∧
  (∀ i, i < 3 → 4 ≤ turns i [0; 1; 2; 1; 0; 2; 2; 1; 0; 0; 1; 2]) ∧
  let s := interleave {| world := sampleWorld; calls := racing 3 1 7 |}
             [0; 1; 2; 1; 0; 2; 2; 1; 0; 0; 1; 2] in
  issued (world s) = issued sampleWorld ++ [(3%Z, 1%Z)] ∧
  ∃ i, i < 3 ∧
       ∀ j c, calls s !! j = Some c →
              if decide (j = i)
              then observed (pc c) = Some Accepted ∧
                   (∃ o, pc c = Returned o) ∧
                   (3%Z ∈ teams sampleWorld → pc c = Returned OAccepted)
              else pc c = Returned OAlreadyAccepted.
Proof.
  assert (Hfair : ∀ i, i < 3 → 4 ≤ turns i [0; 1; 2; 1; 0; 2; 2; 1; 0; 0; 1; 2]).
  { intros i Hi.
    destruct i as [|[|[|i]]]; [vm_compute; lia .. | lia]. }
  split; [reflexivity |]. split; [reflexivity |]. split; [reflexivity |].
  split; [reflexivity |]. split; [lia |]. split; [exact Hfair |].
  apply (C1_exactly_one_accept 3 1 7 sampleWorld invitation7
           {| teamId := 3; invitedByUserId := 2; accepted := false;
              resolvedAt := None |}
           [0; 1; 2; 1; 0; 2; 2; 1; 0; 0; 1; 2]);
    [reflexivity .. | lia | exact Hfair].
Defined.

End ServiceProofs.

(** * Further properties of the component: loading, failures, rendering *)

Module ClientExtras.
Import Client Rendering Bookkeeping.

(** ** Mounting and loading *)

Lemma renderNotification_keys fmt c (l : list Notification) :
  key <$> (renderNotification fmt c <$> l) = id <$> l.
Proof. induction l as [|n l IH]; [done |]. rewrite !fmap_cons. by f_equal. Qed.

(** [componentDidMount] on any component sends exactly the fetch and shows
    the spinner with no alert; once the fetch is fulfilled with [d] the
    list is [d], the spinner is gone and the page shows the empty notice
    when [d] is empty and one item per notification of [d], in order and
    keyed by id, otherwise. *)
Theorem mount_spinner_then_list
    (fmt : string → string) (c : Component) (d : list Notification) :
  let started := (componentDidMount c).1 in
  let loaded := (complete componentDidMount (Fulfilled d) c).1 in
  (complete componentDidMount (Fulfilled d) c).2 = [fetchNotifications] ∧
  render fmt started
  = {| markAllButton := renderMarkAll started; alerts := [];
       content := ContentSpinner |} ∧
  notifications (state loaded) = d ∧
  alerts (render fmt loaded) = [] ∧
  content (render fmt loaded)
  = match d with
    | [] => ContentAlert {| color := "info";
                            text := "You have no notifications yet." |}
    | _ => ContentList (renderNotification fmt loaded <$> d)
    end ∧
  (∀ items, content (render fmt loaded) = ContentList items →
            key <$> items = id <$> d).
Proof.
  destruct c as [s mt]. cbn.
  split_and!; try done.
  - by destruct d.
  - intros items. destruct d as [|n d]; [done |]. intros [= <-].
    apply (renderNotification_keys fmt _ (n :: d)).
Qed.

(** When the fetch is rejected the list the component had is kept, the
    spinner is gone and the only alert is the error, in the danger colour,
    with the server's detail when it is non-empty and the default text
    otherwise; on a freshly constructed component the page therefore shows
    the error above the notice that there are no notifications. *)
Theorem load_failure_keeps_list
    (fmt : string → string) (c : Component) (e : ServiceError) :
  let failed := (complete componentDidMount (Rejected e) c).1 in
  let msg := errorMessage e "Unable to load notifications." in
  notifications (state failed) = notifications (state c) ∧
  loading (state failed) = false ∧
  msg ≠ "" ∧
  alerts (render fmt failed) = [ {| color := "danger"; text := msg |} ] ∧
  content (render fmt (complete componentDidMount (Rejected e) constructor).1)
  = ContentAlert {| color := "info";
                    text := "You have no notifications yet." |}.
Proof.
  assert (Hne : errorMessage e "Unable to load notifications." ≠ "")
    by by apply ClientProofs.errorMessage_nonempty.
  destruct c as [s mt]. cbn -[renderAlerts].
  split_and!; try done.
  by apply ClientProofs.renderAlerts_error_only.
Qed.

(** ** Marking all read: failure and repetition *)

(** On a mounted component a rejected mark-all leaves the list as it was,
    re-enables the mark-all button and shows the error as the only alert;
    the text is the server's detail when that is a non-empty string and
    the default text otherwise. *)
Theorem markAll_failure_rolls_back
    (c : Component) (e : ServiceError) :
  _isMounted c = true →
  let failed := (complete handleMarkAll (Rejected e) c).1 in
  let msg := errorMessage e "Unable to mark all notifications as read." in
  notifications (state failed) = notifications (state c) ∧
  disabled (renderMarkAll failed) = false ∧
  renderAlerts failed = [ {| color := "danger"; text := msg |} ] ∧
  (∀ d, detail e = Some d → d ≠ "" → msg = d) ∧
  (detail e = None ∨ detail e = Some "" →
   msg = "Unable to mark all notifications as read.").
Proof.
  intros Hm. destruct c as [s mt]. simpl in Hm. subst mt.
  assert (Hne : errorMessage e "Unable to mark all notifications as read." ≠ "")
    by by apply ClientProofs.errorMessage_nonempty.
  cbn -[renderAlerts]. split_and!; try done.
  - by apply ClientProofs.renderAlerts_error_only.
  - intros d Hd Hd'. unfold errorMessage. rewrite Hd. by rewrite decide_False.
  - intros [Hd | Hd]; unfold errorMessage; by rewrite Hd.
Qed.

Lemma markAll_failure_rolls_back_witness :
  _isMounted idle = true ∧
  notifications (state (complete handleMarkAll (Rejected noDetail) idle).1)
  = notifications (state idle).
Proof.
  split; [reflexivity |].
  apply (markAll_failure_rolls_back idle noDetail). reflexivity.
Defined.

Lemma withRead_idempotent n : withRead (withRead n) = withRead n.
Proof. done. Qed.

Lemma withReadAccepted_idempotent n :
  withReadAccepted (withReadAccepted n) = withReadAccepted n.
Proof. unfold withReadAccepted. simpl. by destruct (invitation n). Qed.

(** A second fulfilled [handleMarkAll], and a second fulfilled
    [handleAcceptInvitation] on the same notification, leave the component
    exactly as the first left it, though each run sends its request
    again. *)
Theorem markAll_and_accept_repeat
    (c : Component) (n : Notification) (d1 d2 : list Notification) :
  let all1 := (complete handleMarkAll (Fulfilled d1) c).1 in
  let acc1 := (complete (handleAcceptInvitation n) (Fulfilled d1) c).1 in
  complete handleMarkAll (Fulfilled d2) all1
  = (all1, [markAllNotificationsRead]) ∧
  complete (handleAcceptInvitation n) (Fulfilled d2) acc1
  = (acc1, [acceptProjectInvitation (id n)]).
Proof.
  intros all1 acc1. subst all1 acc1.
  unfold complete, handleMarkAll, handleAcceptInvitation.
  cbn [fst snd handleMarkAll_settled handleAcceptInvitation_settled].
  unfold setStateSafely, setState.
  destruct c as [s [|]]; simpl; [| done]. split.
  - do 3 f_equal. apply ClientProofs.fmap_idempotent, withRead_idempotent.
  - do 3 f_equal. apply ClientProofs.fmap_idempotent. intros m.
    repeat case_decide; simpl in *; try done.
    apply withReadAccepted_idempotent.
Qed.

(** ** In-flight markers are backed by outstanding requests *)

Lemma elem_of_delete_ne {A} (l : list A) (i : nat) (x y : A) :
  x ∈ l → l !! i = Some y → x ≠ y → x ∈ delete i l.
Proof.
  intros [j Hj]%list_elem_of_lookup Hi Hne.
  apply list_elem_of_lookup.
  destruct (decide (j < i)) as [Hlt | Hge].
  - exists j. by rewrite list_lookup_delete_lt.
  - assert (j ≠ i) by (intros ->; congruence).
    exists (pred j). rewrite list_lookup_delete_ge by lia.
    by replace (S (pred j)) with j by lia.
Qed.

Lemma markersBacked_settle s i req k c' :
  markersBacked s → pending s !! i = Some (req, k) →
  (∀ j, j ∈ markingIds (state c') →
        j ∈ markingIds (state (component s)) ∧ req ≠ markNotificationRead j) →
  (∀ j, acceptingId (state c') = Some j →
        acceptingId (state (component s)) = Some j ∧
        req ≠ acceptProjectInvitation j) →
  (markAllInProgress (state c') = true →
        markAllInProgress (state (component s)) = true ∧
        req ≠ markAllNotificationsRead) →
  markersBacked {| component := c'; pending := delete i (pending s);
                   sent := sent s |}.
Proof.
  intros (HM & HA & HAll) Hi H1 H2 H3. split_and!; simpl.
  - intros j Hj. destruct (H1 j Hj) as [Hj' Hne].
    destruct (HM j Hj') as [k' Hk']. exists k'.
    apply (elem_of_delete_ne _ i _ (req, k)); [done | done | congruence].
  - intros j Hj. destruct (H2 j Hj) as [Hj' Hne].
    destruct (HA j Hj') as [k' Hk']. exists k'.
    apply (elem_of_delete_ne _ i _ (req, k)); [done | done | congruence].
  - intros Hj. destruct (H3 Hj) as [Hj' Hne].
    destruct (HAll Hj') as [k' Hk']. exists k'.
    apply (elem_of_delete_ne _ i _ (req, k)); [done | done | congruence].
Qed.

Lemma markersBacked_launch s c' (extra : list (Request * Continuation)) :
  markersBacked s →
  (∀ j, j ∈ markingIds (state c') →
        j ∈ markingIds (state (component s)) ∨
        ∃ k, (markNotificationRead j, k) ∈ extra) →
  (∀ j, acceptingId (state c') = Some j →
        acceptingId (state (component s)) = Some j ∨
        ∃ k, (acceptProjectInvitation j, k) ∈ extra) →
  (markAllInProgress (state c') = true →
        markAllInProgress (state (component s)) = true ∨
        ∃ k, (markAllNotificationsRead, k) ∈ extra) →
  markersBacked {| component := c'; pending := pending s ++ extra;
                   sent := sent s ++ extra.*1 |}.
Proof.
  intros (HM & HA & HAll) H1 H2 H3. split_and!; simpl.
  - intros j Hj. destruct (H1 j Hj) as [Hj' | [k Hk]].
    + destruct (HM j Hj') as [k Hk]. exists k. apply elem_of_app. by left.
    + exists k. apply elem_of_app. by right.
  - intros j Hj. destruct (H2 j Hj) as [Hj' | [k Hk]].
    + destruct (HA j Hj') as [k Hk]. exists k. apply elem_of_app. by left.
    + exists k. apply elem_of_app. by right.
  - intros Hj. destruct (H3 Hj) as [Hj' | [k Hk]].
    + destruct (HAll Hj') as [k Hk]. exists k. apply elem_of_app. by left.
    + exists k. apply elem_of_app. by right.
Qed.

Lemma quiet_backed c l snt :
  quiet c → markersBacked {| component := c; pending := l; sent := snt |}.
Proof.
  intros (HM & HA & HAll). split_and!; simpl.
  - intros j. rewrite HM. by intros ?%not_elem_of_empty.
  - intros j. by rewrite HA.
  - by rewrite HAll.
Qed.

Lemma step_bookkeeping s e :
  bookkeeping s → isUnmount e = false → bookkeeping (step s e).
Proof.
  intros (Hentries & Hbacked & Hquiet) He.
  destruct s as [c pend snt]. simpl in *.
  destruct e as [| |[n| |n]|i r| |]; try done; simpl; unfold launch; simpl.
  - (* Mount *)
    split_and!; simpl.
    + apply Forall_app. split; [done |]. by repeat constructor.
    + destruct c as [st [|]]; simpl in *.
      * apply (markersBacked_launch
                 {| component := {| state := st; _isMounted := true |};
                    pending := pend; sent := snt |} _
                 [(fetchNotifications, loadNotifications_settled)]);
          [done | by left ..].
      * by apply quiet_backed, Hquiet.
    + done.
  - (* handleMarkRead *)
    unfold handleMarkRead. destruct (is_read n); simpl; [done |].
    split_and!; simpl.
    + apply Forall_app. split; [done |]. repeat constructor. by exists n.
    + destruct c as [st [|]]; simpl in *.
      * apply (markersBacked_launch
                 {| component := {| state := st; _isMounted := true |};
                    pending := pend; sent := snt |} _
                 [(markNotificationRead (id n), handleMarkRead_settled n)]);
          [done | | by left ..].
        intros j. unfold setAdd. simpl. intros [Hj | ->%elem_of_singleton]%elem_of_union.
        -- by left.
        -- right. eexists. apply list_elem_of_here.
      * by apply quiet_backed, Hquiet.
    + destruct c as [st [|]]; simpl in *; [done | by apply Hquiet].
  - (* handleMarkAll *)
    split_and!; simpl.
    + apply Forall_app. split; [done |]. by repeat constructor.
    + destruct c as [st [|]]; simpl in *.
      * apply (markersBacked_launch
                 {| component := {| state := st; _isMounted := true |};
                    pending := pend; sent := snt |} _
                 [(markAllNotificationsRead, handleMarkAll_settled)]);
          [done | by left.. | ].
        intros _. right. eexists. apply list_elem_of_here.
      * by apply quiet_backed, Hquiet.
    + destruct c as [st [|]]; simpl in *; [done | by apply Hquiet].
  - (* handleAcceptInvitation *)
    split_and!; simpl.
    + apply Forall_app. split; [done |]. repeat constructor. by exists n.
    + destruct c as [st [|]]; simpl in *.
      * apply (markersBacked_launch
                 {| component := {| state := st; _isMounted := true |};
                    pending := pend; sent := snt |} _
                 [(acceptProjectInvitation (id n),
                   handleAcceptInvitation_settled n)]);
          [done | by left | | by left].
        intros j [= <-]. right. eexists. apply list_elem_of_here.
      * by apply quiet_backed, Hquiet.
    + destruct c as [st [|]]; simpl in *; [done | by apply Hquiet].
  - (* a settlement *)
    destruct (pend !! i) as [[req k]|] eqn:Hi; [| done].
    assert (Hok : entryOk (req, k)).
    { rewrite Forall_lookup in Hentries. by apply (Hentries i). }
    assert (Hunm : _isMounted c = false → k r c = c).
    { intros Hm. unfold entryOk in Hok. simpl in Hok.
      destruct req as [|j| |j].
      - subst k. by apply ClientProofs.loadNotifications_settled_inert.
      - destruct Hok as (n & _ & ->).
        by apply ClientProofs.handleMarkRead_settled_inert.
      - subst k. by apply ClientProofs.handleMarkAll_settled_inert.
      - destruct Hok as (n & _ & ->).
        by apply ClientProofs.handleAcceptInvitation_settled_inert. }
    destruct (_isMounted c) eqn:Hm.
    2: { rewrite (Hunm eq_refl). split_and!; simpl.
         - by apply Forall_delete.
         - by apply quiet_backed, Hquiet.
         - intros _. by apply Hquiet. }
    clear Hunm Hquiet.
    assert (Hm' : _isMounted (k r c) = true).
    { unfold entryOk in Hok. simpl in Hok.
      destruct req as [|j| |j], r as [d|e]; try destruct Hok as (n & _ & ->);
        subst; simpl; by rewrite ClientProofs.setStateSafely_isMounted. }
    split_and!; simpl; [by apply Forall_delete | | by rewrite Hm'].
    apply (markersBacked_settle
             {| component := c; pending := pend; sent := snt |} i req k);
      [done | done | ..]; simpl;
      unfold entryOk in Hok; simpl in Hok;
      destruct c as [st mt]; simpl in Hm; subst mt;
      destruct req as [|j0| |j0], r as [d|e];
      try destruct Hok as (n & Hid & ->); subst; cbn;
      try (intros j Hj; by split);
      try (intros Hj; by split).
    + unfold setDelete. intros j [Hj Hne]%elem_of_difference.
      split; [done |]. intros [= Heq]. by apply Hne, elem_of_singleton.
    + unfold setDelete. intros j [Hj Hne]%elem_of_difference.
      split; [done |]. intros [= Heq]. by apply Hne, elem_of_singleton.
  - (* dismissing the error *)
    split_and!; simpl; [done | |].
    + destruct c as [st [|]]; by simpl in *.
    + destruct c as [st [|]]; simpl in *; [done | by apply Hquiet].
  - (* dismissing the info *)
    split_and!; simpl; [done | |].
    + destruct c as [st [|]]; by simpl in *.
    + destruct c as [st [|]]; simpl in *; [done | by apply Hquiet].
Qed.

Lemma run_bookkeeping evs : ∀ s,
  bookkeeping s → Forall (λ e, isUnmount e = false) evs →
  bookkeeping (run s evs).
Proof.
  induction evs as [|e evs IH]; intros s Hs Hevs; [done |].
  inversion Hevs as [|?? He Hevs']; subst. simpl.
  apply IH; [by apply step_bookkeeping | done].
Qed.

(** Start from a component with no in-flight marker set and nothing pending
    (the constructor's, or a loaded idle one) and run any events short of
    an unmount: whenever an id is in [markingIds] a mark-read request for
    that id is outstanding, whenever [acceptingId] is an id an accept
    request for it is outstanding, and whenever [markAllInProgress] is set
    a mark-all request is outstanding. No button stays on "Marking…" or
    "Accepting…" without a call that will settle it. *)
Theorem markers_have_outstanding_requests (c : Component) (evs : list Event) :
  quiet c →
  Forall (λ e, isUnmount e = false) evs →
  let s := run (boot c) evs in
  (∀ i, i ∈ markingIds (state (component s)) →
        ∃ k, (markNotificationRead i, k) ∈ pending s) ∧
  (∀ i, acceptingId (state (component s)) = Some i →
        ∃ k, (acceptProjectInvitation i, k) ∈ pending s) ∧
  (markAllInProgress (state (component s)) = true →
        ∃ k, (markAllNotificationsRead, k) ∈ pending s).
Proof.
  intros Hq Hevs s.
  assert (H0 : bookkeeping (boot c)).
  { split_and!; [constructor | by apply quiet_backed | done]. }
  by destruct (run_bookkeeping evs (boot c) H0 Hevs) as (_ & Hb & _).
Qed.

Lemma markers_have_outstanding_requests_witness :
  quiet constructor ∧
  Forall (λ e, isUnmount e = false)
    [Mount; Settle 0 (Fulfilled [invite7; task8]); Invoke (MarkRead invite7);
     Invoke (AcceptInvitation invite7); Settle 1 (Rejected noDetail)] ∧
  let s := run (boot constructor)
             [Mount; Settle 0 (Fulfilled [invite7; task8]);
              Invoke (MarkRead invite7); Invoke (AcceptInvitation invite7);
              Settle 1 (Rejected noDetail)] in
  (∀ i, i ∈ markingIds (state (component s)) →
        ∃ k, (markNotificationRead i, k) ∈ pending s).
Proof.
  assert (Hq : quiet constructor) by done.
  split; [exact Hq |]. split; [repeat constructor |].
  apply (markers_have_outstanding_requests constructor
           [Mount; Settle 0 (Fulfilled [invite7; task8]);
            Invoke (MarkRead invite7); Invoke (AcceptInvitation invite7);
            Settle 1 (Rejected noDetail)] Hq).
  repeat constructor.
Defined.

(** ** The accept marker holds one id only *)

(** On a mounted component, start an accept of [a] and then, before it
    settles, an accept of [b] with another id: both requests are
    outstanding, but [acceptingId] is [b]'s id only, so the accept button
    rendered for the still pending invitation [a] is enabled again; and
    when [a]'s call settles (either way) [acceptingId] becomes null while
    [b]'s request is still outstanding. *)
Theorem acceptingId_tracks_latest_accept_only
    (c : Component) (a b : Notification) (r : Response) :
  _isMounted c = true →
  id a ≠ id b →
  notification_type a = "project_invitation" →
  invitationPending a = true →
  let s := run (boot c) [Invoke (AcceptInvitation a);
                         Invoke (AcceptInvitation b)] in
  pending s = [(acceptProjectInvitation (id a),
                handleAcceptInvitation_settled a);
               (acceptProjectInvitation (id b),
                handleAcceptInvitation_settled b)] ∧
  acceptingId (state (component s)) = Some (id b) ∧
  head (renderNotificationActions (component s) a)
  = Some {| label := "Accept Invitation"; onClick := AcceptInvitation a;
            disabled := false |} ∧
  (let s' := step s (Settle 0 r) in
   acceptingId (state (component s')) = None ∧
   pending s' = [(acceptProjectInvitation (id b),
                  handleAcceptInvitation_settled b)]).
Proof.
  intros Hm Hne Hty Hpend. destruct c as [st mt]. simpl in Hm. subst mt.
  cbn -[renderNotificationActions]. split_and!; try done; try by destruct r.
  unfold renderNotificationActions. rewrite Hty, Hpend. cbn.
  rewrite (bool_decide_eq_true_2 ("project_invitation" = _)) by done.
  rewrite (bool_decide_eq_false_2 (Some (id b) = Some (id a)));
    [done |]. intros [= Heq]. by apply Hne.
Qed.

Lemma acceptingId_tracks_latest_accept_only_witness :
  _isMounted idle = true ∧ id invite7 ≠ id task8 ∧
  notification_type invite7 = "project_invitation" ∧
  invitationPending invite7 = true ∧
  let s := run (boot idle) [Invoke (AcceptInvitation invite7);
                            Invoke (AcceptInvitation task8)] in
  acceptingId (state (component s)) = Some (id task8) ∧
  head (renderNotificationActions (component s) invite7)
  = Some {| label := "Accept Invitation"; onClick := AcceptInvitation invite7;
            disabled := false |}.
Proof.
  assert (Hne : id invite7 ≠ id task8) by (simpl; lia).
  split; [reflexivity |]. split; [exact Hne |].
  split; [reflexivity |]. split; [reflexivity |].
  pose proof (acceptingId_tracks_latest_accept_only idle invite7 task8
                (Fulfilled []) eq_refl Hne eq_refl eq_refl) as H.
  split; apply H.
Defined.

(** ** Marking each notification read amounts to marking all *)

Lemma fmap_ext_in {A B} (f g : A → B) (l : list A) :
  (∀ x, x ∈ l → f x = g x) → f <$> l = g <$> l.
Proof.
  induction l as [|x l IH]; intros H; [done |].
  rewrite !fmap_cons. f_equal.
  - apply H, list_elem_of_here.
  - apply IH. intros y Hy. by apply H, list_elem_of_further.
Qed.

Lemma hit_same_id todo m m' : id m = id m' → hit todo m = hit todo m'.
Proof. intros H. unfold hit. by rewrite H. Qed.

Lemma hit_unread_member l m : m ∈ l → is_read m = false → hit l m = true.
Proof.
  intros Hin Hr. unfold hit. apply existsb_exists. exists m.
  split; [by apply list_elem_of_In |].
  rewrite Hr. simpl. by apply bool_decide_eq_true.
Qed.

Lemma withRead_read m : is_read m = true → withRead m = m.
Proof. destruct m. simpl. by intros ->. Qed.

Lemma markRead_fulfilled_list n d c :
  _isMounted c = true →
  let c' := (complete (handleMarkRead n) (Fulfilled d) c).1 in
  _isMounted c' = true ∧
  notifications (state c')
  = if is_read n then notifications (state c)
    else (λ m, if decide (id m = id n) then withRead m else m)
           <$> notifications (state c).
Proof.
  intros Hm. destruct c as [st mt]. simpl in Hm. subst mt.
  unfold complete, handleMarkRead. by destruct (is_read n).
Qed.

Lemma markEach_list d todo : ∀ c,
  _isMounted c = true →
  notifications
    (state (foldl (λ c n, (complete (handleMarkRead n) (Fulfilled d) c).1)
                  c todo))
  = (λ m, if hit todo m then withRead m else m) <$> notifications (state c).
Proof.
  induction todo as [|n todo IH]; intros c Hm.
  - simpl. by rewrite list_fmap_id.
  - cbn [foldl].
    destruct (markRead_fulfilled_list n d c Hm) as [Hm' Hl].
    rewrite (IH _ Hm'), Hl. destruct (is_read n) eqn:Hr.
    + apply fmap_ext_in. intros m _. unfold hit. simpl. by rewrite Hr.
    + rewrite <- list_fmap_compose. apply fmap_ext_in. intros m _. simpl.
      unfold hit at 2. cbn [existsb]. fold (hit todo m). rewrite Hr. simpl.
      case_decide as Hid.
      * rewrite (hit_same_id todo (withRead m) m) by done.
        rewrite bool_decide_eq_true_2 by done. simpl.
        by destruct (hit todo m).
      * rewrite bool_decide_eq_false_2 by congruence. done.
Qed.

(** On a mounted component, running [handleMarkRead] to fulfilment on each
    notification of the list in turn leaves the same list as one fulfilled
    [handleMarkAll]: every record with [is_read] set and nothing else
    changed. *)
Theorem markEach_equals_markAll
    (c : Component) (d d' : list Notification) :
  _isMounted c = true →
  notifications (state (markEach d c))
  = notifications (state (complete handleMarkAll (Fulfilled d') c).1) ∧
  notifications (state (markEach d c)) = withRead <$> notifications (state c).
Proof.
  intros Hm.
  assert (H : notifications (state (markEach d c))
              = withRead <$> notifications (state c)).
  { unfold markEach. rewrite (markEach_list d _ c Hm).
    apply fmap_ext_in. intros m Hin.
    destruct (hit (notifications (state c)) m) eqn:Hh; [done |].
    destruct (is_read m) eqn:Hr; [by rewrite withRead_read |].
    by rewrite hit_unread_member in Hh. }
  split; [| done]. rewrite H.
  destruct c as [st mt]. simpl in Hm. by subst mt.
Qed.

Lemma markEach_equals_markAll_witness :
  _isMounted idle = true ∧
  notifications (state (markEach [] idle))
  = withRead <$> notifications (state idle).
Proof.
  split; [reflexivity |].
  apply (markEach_equals_markAll idle [] []). reflexivity.
Defined.

(** ** Buttons after the fact *)

(** On a mounted component, once an accept is fulfilled, every record of
    the list with the accepted notification's id is rendered with a single
    action: the disabled button "Read". The accept button is gone. *)
Theorem accepted_notification_offers_no_action
    (c : Component) (n : Notification) (d : list Notification) :
  _isMounted c = true →
  let c' := (complete (handleAcceptInvitation n) (Fulfilled d) c).1 in
  ∀ m, m ∈ notifications (state c') → id m = id n →
       renderNotificationActions c' m
       = [ {| label := "Read"; onClick := MarkRead m; disabled := true |} ].
Proof.
  intros Hm c' m Hin Hid.
  assert (Hm0 : ∃ m0, m = withReadAccepted m0) .
  { subst c'. destruct c as [st mt]. simpl in Hm. subst mt.
    unfold complete, handleAcceptInvitation in Hin. cbn in Hin.
    apply list_elem_of_fmap in Hin as (m0 & -> & _).
    exists m0. case_decide as Hd; [done |]. by destruct Hd. }
  destruct Hm0 as [m0 ->].
  unfold renderNotificationActions.
  assert (Hp : invitationPending (withReadAccepted m0) = false).
  { unfold invitationPending. simpl. by destruct (invitation m0). }
  rewrite Hp, andb_false_r. done.
Qed.

Lemma accepted_notification_offers_no_action_witness :
  _isMounted idle = true ∧
  let c' := (complete (handleAcceptInvitation invite7) (Fulfilled []) idle).1 in
  ∀ m, m ∈ notifications (state c') → id m = id invite7 →
       renderNotificationActions c' m
       = [ {| label := "Read"; onClick := MarkRead m; disabled := true |} ].
Proof.
  split; [reflexivity |].
  apply (accepted_notification_offers_no_action idle invite7 []). reflexivity.
Defined.

(** For a notification that is already read, whatever the state of the
    component: every button rendered for it either is the accept button or
    does nothing when clicked (no request, no state change). This covers
    the "Mark as read" button of a read pending invitation, which is
    rendered enabled. *)
Theorem read_notification_cannot_be_marked_again
    (c : Component) (n : Notification) (b : Button) :
  is_read n = true →
  b ∈ renderNotificationActions c n →
  onClick b = AcceptInvitation n ∨ click b c = (c, None).
Proof.
  intros Hr Hb. unfold renderNotificationActions in Hb.
  assert (Hmark : onClick b = MarkRead n → click b c = (c, None)).
  { intros Hon. unfold click. destruct (disabled b); [done |].
    rewrite Hon. simpl. unfold handleMarkRead. by rewrite Hr. }
  destruct (bool_decide (notification_type n = "project_invitation")
            && invitationPending n).
  - apply elem_of_cons in Hb as [-> | Hb]; [by left |].
    apply list_elem_of_singleton in Hb as ->. right. by apply Hmark.
  - apply list_elem_of_singleton in Hb as ->. right. by apply Hmark.
Qed.

Lemma read_notification_cannot_be_marked_again_witness :
  is_read task8 = true ∧
  {| label := "Read"; onClick := MarkRead task8; disabled := true |}
    ∈ renderNotificationActions idle task8 ∧
  (onClick {| label := "Read"; onClick := MarkRead task8; disabled := true |}
   = AcceptInvitation task8
   ∨ click {| label := "Read"; onClick := MarkRead task8; disabled := true |}
       idle = (idle, None)).
Proof.
  assert (Hin : {| label := "Read"; onClick := MarkRead task8;
                   disabled := true |}
                ∈ renderNotificationActions idle task8).
  { vm_compute. apply list_elem_of_here. }
  split; [reflexivity |]. split; [exact Hin |].
  exact (read_notification_cannot_be_marked_again idle task8 _ eq_refl Hin).
Defined.

(** On a mounted component that is not loading, once [handleMarkAll] is
    fulfilled the page shows the success alert only, the mark-all button
    is enabled, and the list has one item per notification none of which
    carries the unread highlight. *)
Theorem markAll_success_clears_highlights
    (fmt : string → string) (c : Component) (d : list Notification) :
  _isMounted c = true →
  loading (state c) = false →
  let c' := (complete handleMarkAll (Fulfilled d) c).1 in
  alerts (render fmt c')
  = [ {| color := "success"; text := "All notifications marked as read." |} ] ∧
  disabled (markAllButton (render fmt c')) = false ∧
  ∀ items, content (render fmt c') = ContentList items →
           length items = length (notifications (state c)) ∧
           Forall (λ it, className it = "flex-column align-items-start ")
                  items.
Proof.
  intros Hm Hl. destruct c as [st mt]. simpl in Hm, Hl. subst mt.
  cbn. split_and!; try done.
  intros items. unfold renderContent, setState. cbn. rewrite Hl.
  destruct (notifications st) as [|n l]; [done |].
  rewrite fmap_cons. intros [= <-]. split.
  - cbn [length]. by rewrite !length_fmap.
  - constructor; [done |].
    apply Forall_fmap, Forall_fmap, Forall_forall. by intros m _.
Qed.

Lemma markAll_success_clears_highlights_witness :
  _isMounted idle = true ∧ loading (state idle) = false ∧
  alerts (render (λ v, v) (complete handleMarkAll (Fulfilled []) idle).1)
  = [ {| color := "success"; text := "All notifications marked as read." |} ].
Proof.
  split; [reflexivity |]. split; [reflexivity |].
  apply (markAll_success_clears_highlights (λ v, v) idle []); reflexivity.
Defined.

(** ** Dismissing alerts *)



(** ** The type badge *)

Lemma replaceFirst_absent pat rep s :
  occurs pat s = false → replaceFirst pat rep s = s.
Proof.
  induction s as [|a s IH]; [done |]. simpl.
  intros [Ha Hs]%orb_false_iff. apply bool_decide_eq_false in Ha.
  rewrite decide_False by done. by rewrite IH.
Qed.

Lemma replaceFirst_first pat rep pre post :
  occurs pat pre = false →
  replaceFirst pat rep (pre +:+ String pat post) = pre +:+ String rep post.
Proof.
  induction pre as [|a pre IH]; simpl.
  - intros _. by rewrite decide_True.
  - intros [Ha Hs]%orb_false_iff. apply bool_decide_eq_false in Ha.
    rewrite decide_False by done. by rewrite IH.
Qed.

Lemma replaceFirst_length pat rep s :
  String.length (replaceFirst pat rep s) = String.length s.
Proof.
  induction s as [|a s IH]; [done |]. simpl.
  case_decide; simpl; by rewrite ?IH.
Qed.

(** The type badge of an item shows the notification type with its first
    underscore, and only the first, turned into a space: whatever follows
    the first underscore is shown unchanged, further underscores included;
    a type without underscore is shown as it is, and the badge text always
    has the length of the type. *)
Theorem type_badge_replaces_first_underscore_only
    (fmt : string → string) (c : Component) (n : Notification)
    (pre post : string) :
  notification_type n = pre +:+ String underscore post →
  occurs underscore pre = false →
  head (badges (renderNotification fmt c n))
  = Some {| badgeColor := "secondary";
            badgeText := pre +:+ String space post |} ∧
  (∀ n', occurs underscore (notification_type n') = false →
         head (badges (renderNotification fmt c n'))
         = Some {| badgeColor := "secondary";
                   badgeText := notification_type n' |}) ∧
  (∀ n' bd, head (badges (renderNotification fmt c n')) = Some bd →
            String.length (badgeText bd)
            = String.length (notification_type n')).
Proof.
  intros Hty Hpre. split_and!.
  - simpl. by rewrite Hty, replaceFirst_first.
  - intros n' Hn'. simpl. by rewrite replaceFirst_absent.
  - intros n' bd [= <-]. simpl. apply replaceFirst_length.
Qed.

Lemma type_badge_replaces_first_underscore_only_witness :
  notification_type invite7 = "project" +:+ String underscore "invitation" ∧
  occurs underscore "project" = false ∧
  head (badges (renderNotification (λ v, v) idle invite7))
  = Some {| badgeColor := "secondary";
            badgeText := "project" +:+ String space "invitation" |}.
Proof.
  split; [reflexivity |]. split; [reflexivity |].
  apply (type_badge_replaces_first_underscore_only (λ v, v) idle invite7
           "project" "invitation"); reflexivity.
Defined.

(** ** Races and leftovers *)

(** A fetch that settles after local updates overwrites them: mount any
    component, start a mark-all while the fetch is outstanding, let the
    mark-all be fulfilled and then the fetch be fulfilled with [d]: the
    list is exactly [d], unread records of [d] included, and the spinner is
    gone. *)
Theorem late_fetch_overwrites_local_marks
    (c : Component) (d d1 : list Notification) :
  let s := run (boot c) [Mount; Invoke MarkAll; Settle 1 (Fulfilled d1);
                         Settle 0 (Fulfilled d)] in
  notifications (state (component s)) = d ∧
  loading (state (component s)) = false ∧
  pending s = [] ∧
  sent s = [fetchNotifications; markAllNotificationsRead].
Proof. by destruct c as [st mt]. Qed.

(** On a mounted component showing a success message, a rejected
    mark-read on an unread notification leaves that message in place:
    the page shows the error alert followed by the earlier success alert
    ([handleMarkRead] does not clear [info], unlike the other two
    handlers). *)
Theorem markRead_failure_keeps_success_alert
    (c : Component) (n : Notification) (e : ServiceError) (i : string) :
  _isMounted c = true →
  is_read n = false →
  info (state c) = Some i → i ≠ "" →
  let c' := (complete (handleMarkRead n) (Rejected e) c).1 in
  renderAlerts c'
  = [ {| color := "danger";
         text := errorMessage e "Unable to mark notification as read." |};
      {| color := "success"; text := i |} ].
Proof.
  intros Hm Hr Hi Hne. destruct c as [st mt]. simpl in Hm, Hi. subst mt.
  unfold complete, handleMarkRead. rewrite Hr. cbn -[truthy].
  unfold renderAlerts. cbn -[truthy]. rewrite Hi.
  rewrite !ClientProofs.truthy_nonempty; [done | done |].
  by apply ClientProofs.errorMessage_nonempty.
Qed.

Lemma markRead_failure_keeps_success_alert_witness :
  let c := (complete handleMarkAll (Fulfilled []) idle).1 in
  _isMounted c = true ∧ is_read invite7 = false ∧
  info (state c) = Some "All notifications marked as read." ∧
  "All notifications marked as read." ≠ "" ∧
  renderAlerts (complete (handleMarkRead invite7) (Rejected noDetail) c).1
  = [ {| color := "danger";
         text := errorMessage noDetail "Unable to mark notification as read." |};
      {| color := "success"; text := "All notifications marked as read." |} ].
Proof.
  split; [reflexivity |]. split; [reflexivity |]. split; [reflexivity |].
  split; [done |].
  by apply (markRead_failure_keeps_success_alert _ invite7 noDetail
              "All notifications marked as read.").
Defined.

Lemma dispatch_keepsLoading a c :
  loading (state (dispatch a c).1) = loading (state c) ∧
  ∀ req k, (dispatch a c).2 = Some (req, k) → keepsLoading k.
Proof.
  destruct a as [n| |n]; simpl.
  - unfold handleMarkRead. destruct (is_read n); simpl.
    + split; [done | intros ?? [=]].
    + split; [by destruct c as [s [|]] |].
      intros ?? [= <- <-]. by intros [d|e] [s [|]].
  - split; [by destruct c as [s [|]] |].
    intros ?? [= <- <-]. by intros [d|e] [s [|]].
  - split; [by destruct c as [s [|]] |].
    intros ?? [= <- <-]. by intros [d|e] [s [|]].
Qed.

Lemma run_keepsLoading evs : ∀ s,
  Forall (λ p, keepsLoading p.2) (pending s) →
  Forall (λ e, isMount e = false) evs →
  loading (state (component (run s evs))) = loading (state (component s)).
Proof.
  induction evs as [|e evs IH]; intros s Hs Hevs; [done |].
  inversion Hevs as [|?? He Hevs']; subst. cbn [run foldl].
  fold (run (step s e) evs).
  assert (Hstep : Forall (λ p, keepsLoading p.2) (pending (step s e)) ∧
                  loading (state (component (step s e)))
                  = loading (state (component s))).
  { destruct e as [| |a|i r| |]; simpl in *; try done.
    - unfold launch. destruct (dispatch_keepsLoading a (component s)) as [H1 H2].
      destruct (dispatch a (component s)) as [c' [[req k]|]]; simpl in *.
      + split; [| done]. apply Forall_app. split; [done |].
        constructor; [| constructor]. by apply (H2 req).
      + done.
    - destruct (pending s !! i) as [[req k]|] eqn:E; [| done]. simpl.
      split; [by apply Forall_delete |].
      rewrite Forall_lookup in Hs. by apply (Hs i (req, k) E).
    - split; [done |]. by destruct (component s) as [st [|]].
    - split; [done |]. by destruct (component s) as [st [|]]. }
  destruct Hstep as [Hs' Hl]. by rewrite (IH _ Hs' Hevs').
Qed.

(** From a component that is not loading and has nothing pending, no run
    of the three mutation handlers (started, fulfilled or rejected in any
    order, with alerts dismissed or the component unmounted in between)
    ever brings the spinner back: the page keeps showing the list or the
    empty notice. *)
Theorem mutations_never_show_spinner
    (fmt : string → string) (c : Component) (evs : list Event) :
  loading (state c) = false →
  Forall (λ e, isMount e = false) evs →
  renderContent fmt (component (run (boot c) evs)) ≠ ContentSpinner.
Proof.
  intros Hl Hevs.
  pose proof (run_keepsLoading evs (boot c) (Forall_nil_2 _) Hevs) as H.
  simpl in H. unfold renderContent. rewrite H, Hl.
  by destruct (notifications _).
Qed.

Lemma mutations_never_show_spinner_witness :
  loading (state idle) = false ∧
  Forall (λ e, isMount e = false)
    [Invoke MarkAll; Invoke (MarkRead invite7); Settle 0 (Rejected noDetail)] ∧
  renderContent (λ v, v)
    (component (run (boot idle)
       [Invoke MarkAll; Invoke (MarkRead invite7);
        Settle 0 (Rejected noDetail)]))
  ≠ ContentSpinner.
Proof.
  split; [reflexivity |]. split; [repeat constructor |].
  apply (mutations_never_show_spinner (λ v, v) idle); [reflexivity |].
  repeat constructor.
Defined.

End ClientExtras.

(** * Properties of the HTTP calls *)

Module EndpointProofs.
Import Client Endpoints.

Lemma numeralChar_digit y : numeralChar (pretty_N_char y).
Proof. unfold pretty_N_char. by repeat case_match. Qed.

Lemma pretty_N_go_chars x : ∀ s,
  allChars numeralChar s → allChars numeralChar (pretty_N_go x s).
Proof.
  induction (N.lt_wf_0 x) as [x _ IH]; intros s Hs.
  assert (x = 0 ∨ 0 < x)%N as [-> | Hx] by lia.
  - by rewrite pretty_N_go_0.
  - rewrite pretty_N_go_step by done. apply IH.
    + by apply N.div_lt.
    + split; [apply numeralChar_digit | done].
Qed.

Lemma pretty_N_chars (x : N) : allChars numeralChar (pretty x).
Proof.
  unfold pretty, pretty_N. case_decide.
  - by repeat split.
  - by apply pretty_N_go_chars.
Qed.

Lemma pretty_Z_chars (i : Z) : allChars numeralChar (pretty i).
Proof.
  unfold pretty, pretty_Z. destruct i as [|x|x].
  - by repeat split.
  - apply pretty_N_chars.
  - split; [by split |]. apply pretty_N_chars.
Qed.

(** A numeral followed by a slash determines both the numeral and what
    follows. *)
Lemma numeral_slash_inj p : ∀ q t t',
  allChars numeralChar p → allChars numeralChar q →
  p +:+ String slash t = q +:+ String slash t' → p = q ∧ t = t'.
Proof.
  induction p as [|a p IH]; intros [|b q] t t' Hp Hq; simpl.
  - by intros [= ->].
  - intros [= <- _]. destruct Hq as [[Hb _] _]. by destruct Hb.
  - intros [= -> _]. destruct Hp as [[Ha _] _]. by destruct Ha.
  - intros [= -> Heq]. destruct Hp as [_ Hp], Hq as [_ Hq].
    destruct (IH q t t' Hp Hq Heq) as [-> ->]. done.
Qed.

Lemma numeral_not_m p t t' :
  allChars numeralChar p → p +:+ String slash t ≠ String letter_m t'.
Proof.
  destruct p as [|a p]; simpl; [by intros _ [=] |].
  intros [[_ Ha] _] [= -> _]. by destruct Ha.
Qed.

(** For calls whose ids are safe integers, the method and URL are
    defined, and two calls go to the same method and URL only if they are
    the same call with the same id: no mark-read or accept URL of one
    notification is that of another, none is the mark-all URL, and the two
    kinds never coincide. *)
Theorem endpoint_injective (r1 r2 : Request) :
  safeRequest r1 → safeRequest r2 →
  ∃ e1 e2, endpoint r1 = Some e1 ∧ endpoint r2 = Some e2 ∧
           (e1 = e2 → r1 = r2).
Proof.
  pose proof pretty_Z_chars as Hc.
  intros H1 H2.
  destruct r1 as [|i| |i], r2 as [|j| |j]; simpl in H1, H2;
    unfold endpoint, templateLiteral; rewrite ?H1, ?H2;
    cbn [fmap option_fmap option_map]; do 2 eexists;
    (split; [reflexivity |]); (split; [reflexivity |]);
    unfold API_BASE; try done; intros [= Heq].
  - destruct (numeral_slash_inj _ _ _ _ (Hc i) (Hc j) Heq) as [Hp _].
    f_equal. by apply (inj pretty).
  - by apply (numeral_not_m _ _ _ (Hc i)) in Heq.
  - by destruct (numeral_slash_inj _ _ _ _ (Hc i) (Hc j) Heq) as [_ [=]].
  - symmetry in Heq. by apply (numeral_not_m _ _ _ (Hc j)) in Heq.
  - symmetry in Heq. by apply (numeral_not_m _ _ _ (Hc j)) in Heq.
  - by destruct (numeral_slash_inj _ _ _ _ (Hc i) (Hc j) Heq) as [_ [=]].
  - by apply (numeral_not_m _ _ _ (Hc i)) in Heq.
  - destruct (numeral_slash_inj _ _ _ _ (Hc i) (Hc j) Heq) as [Hp _].
    f_equal. by apply (inj pretty).
Qed.

Lemma endpoint_injective_witness :
  safeRequest (markNotificationRead 7) ∧
  safeRequest (acceptProjectInvitation 7) ∧
  ∃ e1 e2, endpoint (markNotificationRead 7) = Some e1 ∧
           endpoint (acceptProjectInvitation 7) = Some e2 ∧
           (e1 = e2 → markNotificationRead 7 = acceptProjectInvitation 7).
Proof.
  split; [reflexivity |]. split; [reflexivity |].
  apply (endpoint_injective (markNotificationRead 7)
           (acceptProjectInvitation 7)); reflexivity.
Defined.

End EndpointProofs.
